(** * TodoApp: the task list of the to-do application, and its persistence

    A shallow embedding of the [TodoApp] class (the refactored, hardened
    version of [js/app.js]): the task list lives in the DOM as the children of
    [ul.task-list], every task is an [li.task-item] element carrying
    [dataset.id], a [span.task-content] with the text, and the class
    [completed] on that span.  The persistent slot is the [localStorage] item
    stored under [CONFIG.STORAGE_KEY].

    What is modelled: the value of the input field, the [li] elements (by
    node identity, in a heap), the ordered children of the list, the
    visibility of the clear button and of the empty-state banner, the storage
    slot, the [alert] and [console] output, and the readings of [Date.now()].
    What is left out: [focus()] calls, the labels of the buttons, and the
    per-element [_cache] (a pure memoisation of [querySelector]). *)

From Stdlib Require Import ZArith Ascii String DecimalString.
From Stdlib Require DecimalZ DecimalPos.
From stdpp Require Import base list strings.

#[local] Set Warnings "-clear-no-such-hyp".

Open Scope string_scope.

(** ** JavaScript strings and JSON values *)

Module JS.

(** Strings are sequences of code units; the model keeps the code units
    below 256 (Latin-1), which is what [Ascii.ascii] holds.  In that range the
    characters removed by [String.prototype.trim] are TAB, LF, VT, FF, CR,
    SPACE and NBSP. *)
Definition is_whitespace (c : ascii) : bool :=
  let n := nat_of_ascii c in
  ((9 <=? n)%nat && (n <=? 13)%nat) || (n =? 32)%nat || (n =? 160)%nat.

Fixpoint trimStart (s : string) : string :=
  match s with
  | EmptyString => EmptyString
  | String c s' => if is_whitespace c then trimStart s' else s
  end.

Fixpoint trimEnd (s : string) : string :=
  match s with
  | EmptyString => EmptyString
  | String c s' =>
      match trimEnd s' with
      | EmptyString => if is_whitespace c then EmptyString else String c EmptyString
      | r => String c r
      end
  end.

(** [s.trim()] *)
Definition trim (s : string) : string := trimEnd (trimStart s).

(** [toLowerCase] on Latin-1: A-Z and the accented capitals U+00C0-U+00DE
    (the multiplication sign U+00D7 excepted) move up by 32. *)
Definition lower_char (c : ascii) : ascii :=
  let n := nat_of_ascii c in
  if ((65 <=? n)%nat && (n <=? 90)%nat)
     || ((192 <=? n)%nat && (n <=? 214)%nat)
     || ((216 <=? n)%nat && (n <=? 222)%nat)
  then ascii_of_nat (n + 32) else c.

Fixpoint toLowerCase (s : string) : string :=
  match s with
  | EmptyString => EmptyString
  | String c s' => String (lower_char c) (toLowerCase s')
  end.

(** The values [JSON.parse] can produce.  Numbers are kept to the integers
    (a fractional number behaves like a non-zero integer everywhere below,
    except for the digits [ToString] prints). An object is its list of own
    properties; [JSON.parse] leaves at most one property per key, and [get]
    reads the first. *)
#[local] Set Warnings "-register-all".
Inductive json : Type :=
  | JNull
  | JBool (b : bool)
  | JNumber (n : Z)
  | JString (s : string)
  | JArray (elems : list json)
  | JObject (props : list (string * json)).

(** A JavaScript value as seen by the methods below: [None] is [undefined]. *)
Definition value : Type := option json.
Definition undefined : value := None.

Fixpoint lookup_prop (k : string) (props : list (string * json)) : value :=
  match props with
  | [] => None
  | (k', v) :: rest => if String.eqb k' k then Some v else lookup_prop k rest
  end.

(** [v.k] for the property names the program reads ([text], [completed],
    [id]): only an object can own them. *)
Definition get (v : json) (k : string) : value :=
  match v with
  | JObject props => lookup_prop k props
  | _ => None
  end.

(** Truthiness, as [if], [&&] and [||] test it. *)
Definition truthy (v : json) : bool :=
  match v with
  | JNull => false
  | JBool b => b
  | JNumber n => negb (n =? 0)%Z
  | JString s => negb (String.eqb s "")
  | JArray _ | JObject _ => true
  end.

Inductive jstype : Type :=
  | Tundefined | Tobject | Tboolean | Tnumber | Tstring.

(** [typeof v] *)
Definition typeof (v : value) : jstype :=
  match v with
  | None => Tundefined
  | Some JNull | Some (JArray _) | Some (JObject _) => Tobject
  | Some (JBool _) => Tboolean
  | Some (JNumber _) => Tnumber
  | Some (JString _) => Tstring
  end.

Definition jstype_eqb (t u : jstype) : bool :=
  match t, u with
  | Tundefined, Tundefined | Tobject, Tobject | Tboolean, Tboolean
  | Tnumber, Tnumber | Tstring, Tstring => true
  | _, _ => false
  end.

(** [String(n)] for a number that is an integer: its decimal digits.  This
    is what JavaScript prints for magnitudes below 10^21, which covers every
    reading of [Date.now()]; above that JavaScript turns to the exponent
    form, which this model does not follow. *)
Definition number_to_string (n : Z) : string :=
  NilZero.string_of_int (Z.to_int n).

(** [ToString v], the conversion applied by the [dataset.id] setter; [None]
    is a thrown [TypeError].  An array joins its elements with commas (a
    [null] element prints as nothing).  A parsed object prints as
    ["[object Object]"] through [Object.prototype.toString], unless it owns a
    property named [toString]: no JSON value is callable, so then neither
    [toString] nor [valueOf] yields a primitive and the conversion throws. *)
Fixpoint ToString (v : json) : option string :=
  match v with
  | JNull => Some "null"
  | JBool true => Some "true"
  | JBool false => Some "false"
  | JNumber n => Some (number_to_string n)
  | JString s => Some s
  | JArray elems =>
      let elem (x : json) : option string :=
        match x with JNull => Some "" | _ => ToString x end in
      (fix join (l : list json) : option string :=
         match l with
         | [] => Some ""
         | [x] => elem x
         | x :: rest =>
             match elem x, join rest with
             | Some s, Some r => Some (s +:+ "," +:+ r)
             | _, _ => None
             end
         end) elems
  | JObject props =>
      match lookup_prop "toString" props with
      | Some _ => None
      | None => Some "[object Object]"
      end
  end.

End JS.

Import JS.
Open Scope list_scope.

(** ** The state of the page *)

(** What can be thrown while the methods run. *)
Inductive error : Type :=
  | SyntaxError        (* thrown by [JSON.parse] *)
  | NotAnArrayError    (* the [Error] thrown when the payload is not an array *)
  | TypeError.         (* thrown by a failing conversion or a non-element *)

(** [TodoApp.CONFIG]: the storage key, the length limit, and the messages
    of [ERROR_MESSAGES] by name; [DATA_CORRUPT] is followed by the message
    of the error that was caught. *)
Module CONFIG.
Definition STORAGE_KEY : string := "todoList".

Definition MAX_TASK_LENGTH : nat := 200.

Inductive ERROR_MESSAGES : Type :=
  | EMPTY_TASK
  | WHITESPACE_ONLY
  | TASK_TOO_LONG
  | TASK_EXISTS
  | DATA_CORRUPT (e : error).
End CONFIG.
Export CONFIG.

(** The error kinds of the specification, and the alert that stands for each
    in the program, which reports every failure through [alert]. *)
Inductive ErrorKind : Type :=
  | ValidationError | DuplicateError | NotFoundError | DataCorruptError.

Definition kind_of (m : ERROR_MESSAGES) : ErrorKind :=
  match m with
  | EMPTY_TASK | WHITESPACE_ONLY | TASK_TOO_LONG => ValidationError
  | TASK_EXISTS => DuplicateError
  | DATA_CORRUPT _ => DataCorruptError
  end.

(** An [li.task-item]: [dataset.id], the [textContent] of its content span,
    and whether that span has the class [completed]. *)
Record TaskItem : Type := mkTaskItem {
  dataset_id : string;
  textContent : string;
  completed : bool
}.

#[global] Instance TaskItem_eq_dec : EqDecision TaskItem.
Proof. solve_decision. Defined.

(** Elements are identified by reference: a node is an index in the heap of
    the elements created so far.  An index beyond the heap stands for a
    reference that is no element at all ([null]). *)
Definition node : Type := nat.

(** The string held by the storage slot, described by what the program can
    observe of it: whether it is empty, and what [JSON.parse] makes of it.
    [JSON.stringify v] is the string [Json v]. *)
Inductive stored : Type :=
  | Blank                (* the empty string *)
  | Malformed            (* a non-empty string [JSON.parse] rejects *)
  | Json (v : json).     (* a string [JSON.parse] maps to [v] *)

Inductive display : Type := display_unset | display_none | display_block.

Inductive console_msg : Type :=
  | warn_skipped (taskData : json)
  | warn_summary (validTaskCount invalidTaskCount : nat)
  | error_load_failed (e : error).

Record TodoApp : Type := mkTodoApp {
  taskInput_value : string;           (* elements.taskInput.value *)
  heap : list TaskItem;               (* every task element created so far *)
  taskList : list node;               (* children of elements.taskList *)
  clearCompletedBtn_show : bool;      (* class 'show' of the clear button *)
  emptyState_display : display;       (* elements.emptyState.style.display *)
  localStorage : option stored;       (* getItem(CONFIG.STORAGE_KEY) *)
  alerts : list ERROR_MESSAGES;       (* alert(...) calls, latest first *)
  console : list console_msg;         (* console output, latest first *)
  clock : nat -> Z;                   (* reading of the k-th Date.now() *)
  ticks : nat                         (* number of Date.now() calls so far *)
}.

Definition set_taskInput_value (v : string) (a : TodoApp) : TodoApp :=
  mkTodoApp v (heap a) (taskList a) (clearCompletedBtn_show a)
    (emptyState_display a) (localStorage a) (alerts a) (console a)
    (clock a) (ticks a).

Definition set_heap (h : list TaskItem) (a : TodoApp) : TodoApp :=
  mkTodoApp (taskInput_value a) h (taskList a) (clearCompletedBtn_show a)
    (emptyState_display a) (localStorage a) (alerts a) (console a)
    (clock a) (ticks a).

Definition set_taskList (l : list node) (a : TodoApp) : TodoApp :=
  mkTodoApp (taskInput_value a) (heap a) l (clearCompletedBtn_show a)
    (emptyState_display a) (localStorage a) (alerts a) (console a)
    (clock a) (ticks a).

Definition set_clearCompletedBtn_show (b : bool) (a : TodoApp) : TodoApp :=
  mkTodoApp (taskInput_value a) (heap a) (taskList a) b
    (emptyState_display a) (localStorage a) (alerts a) (console a)
    (clock a) (ticks a).

Definition set_emptyState_display (d : display) (a : TodoApp) : TodoApp :=
  mkTodoApp (taskInput_value a) (heap a) (taskList a)
    (clearCompletedBtn_show a) d (localStorage a) (alerts a) (console a)
    (clock a) (ticks a).

Definition set_localStorage (s : option stored) (a : TodoApp) : TodoApp :=
  mkTodoApp (taskInput_value a) (heap a) (taskList a)
    (clearCompletedBtn_show a) (emptyState_display a) s (alerts a)
    (console a) (clock a) (ticks a).

(** [alert(m)] *)
Definition alert (m : ERROR_MESSAGES) (a : TodoApp) : TodoApp :=
  mkTodoApp (taskInput_value a) (heap a) (taskList a)
    (clearCompletedBtn_show a) (emptyState_display a) (localStorage a)
    (m :: alerts a) (console a) (clock a) (ticks a).

(** [console.warn(m)], [console.error(m)] *)
Definition console_log (m : console_msg) (a : TodoApp) : TodoApp :=
  mkTodoApp (taskInput_value a) (heap a) (taskList a)
    (clearCompletedBtn_show a) (emptyState_display a) (localStorage a)
    (alerts a) (m :: console a) (clock a) (ticks a).

(** [Date.now()]: the next reading of the clock. *)
Definition Date_now (a : TodoApp) : Z * TodoApp :=
  (clock a (ticks a),
   mkTodoApp (taskInput_value a) (heap a) (taskList a)
     (clearCompletedBtn_show a) (emptyState_display a) (localStorage a)
     (alerts a) (console a) (clock a) (S (ticks a))).

(** The task list as the specification sees it: the [(id, text, completed)]
    records of the children of the list, in document order. *)
Definition tasks_of (h : list TaskItem) (l : list node) : list TaskItem :=
  omap (fun n => h !! n) l.

Definition tasks (a : TodoApp) : list TaskItem :=
  tasks_of (heap a) (taskList a).

(** *** DOM primitives on the children of the list *)

(** [taskItem.remove()] *)
Definition detach (n : node) (l : list node) : list node :=
  filter (fun m => m <> n) l.

(** [taskList.appendChild(n)]: an element already in the list moves. *)
Definition appendChild (n : node) (l : list node) : list node :=
  detach n l ++ [n].

(** [taskList.insertBefore(n, taskList.firstChild)] *)
Definition insertBefore_firstChild (n : node) (l : list node) : list node :=
  n :: detach n l.

(** [document.createElement('li')] together with the assembly of its
    content: a new node at the end of the heap. *)
Definition createElement (t : TaskItem) (a : TodoApp) : node * TodoApp :=
  (length (heap a), set_heap (heap a ++ [t]) a).

(** ** The methods of [TodoApp] *)

(** How a call ends: it returns a value or throws. *)
Inductive completion : Type :=
  | Return (v : value)
  | Throw (e : error).

Definition method : Type := TodoApp -> completion * TodoApp.

(** [saveTasks()]: the records of all task items, in document order, written
    over the slot. *)
Definition task_to_json (t : TaskItem) : json :=
  JObject [("id", JString (dataset_id t));
           ("text", JString (textContent t));
           ("completed", JBool (completed t))].

Definition saveTasks (a : TodoApp) : TodoApp :=
  set_localStorage (Some (Json (JArray (map task_to_json (tasks a))))) a.

(** [updateClearButton()] *)
Definition updateClearButton (a : TodoApp) : TodoApp :=
  let hasCompleted := existsb completed (tasks a) in
  set_clearCompletedBtn_show hasCompleted a.

(** [updateEmptyState()] *)
Definition updateEmptyState (a : TodoApp) : TodoApp :=
  let hasTasks := (0 <? length (taskList a))%nat in
  set_emptyState_display (if hasTasks then display_none else display_block) a.

(** [createEmptyState()]: the banner is created with no inline display. *)
Definition createEmptyState (a : TodoApp) : TodoApp :=
  set_emptyState_display display_unset a.

(** [insertTaskIntoList(taskItem, completed)] *)
Definition insertTaskIntoList (taskItem : node) (completed : bool)
    (a : TodoApp) : TodoApp :=
  if completed
  then set_taskList (appendChild taskItem (taskList a)) a
  else set_taskList (insertBefore_firstChild taskItem (taskList a)) a.

(** [id || Date.now()]: the clock is read only when [id] is falsy. *)
Definition id_or_now (id : value) (a : TodoApp) : json * TodoApp :=
  match id with
  | Some v =>
      if truthy v then (v, a)
      else let '(now, a') := Date_now a in (JNumber now, a')
  | None => let '(now, a') := Date_now a in (JNumber now, a')
  end.

(** [addTask(text, completed = false, id = null)].  The [dataset.id] setter
    converts [id || Date.now()] to a string, and throws when that conversion
    does; the element is then never inserted. *)
Definition addTask (text : string) (completed : bool) (id : value) : method :=
  fun a =>
    let '(idValue, a1) := id_or_now id a in
    match ToString idValue with
    | None => (Throw TypeError, a1)
    | Some sid =>
        let '(taskItem, a2) := createElement (mkTaskItem sid text completed) a1 in
        let a3 := insertTaskIntoList taskItem completed a2 in
        (Return undefined, updateClearButton (updateEmptyState (saveTasks a3)))
    end.

(** [handleAdd()] *)
Definition handleAdd : method :=
  fun a =>
    let taskText := taskInput_value a in
    if String.eqb taskText "" then
      (Return undefined, alert EMPTY_TASK a)
    else if String.eqb (trim taskText) "" then
      (Return undefined, set_taskInput_value "" (alert WHITESPACE_ONLY a))
    else if (MAX_TASK_LENGTH <? String.length taskText)%nat then
      (Return undefined, alert TASK_TOO_LONG a)
    else
      let normalizedText := trim taskText in
      if existsb
           (fun taskContent =>
              String.eqb (toLowerCase (textContent taskContent))
                         (toLowerCase normalizedText)
              && negb (completed taskContent))
           (tasks a)
      then (Return undefined, alert TASK_EXISTS a)
      else
        match addTask normalizedText false None a with
        | (Return _, a') => (Return undefined, set_taskInput_value "" a')
        | (Throw e, a') => (Throw e, a')
        end.

(** [deleteTask(taskItem)] *)
Definition deleteTask (taskItem : node) : method :=
  fun a =>
    match heap a !! taskItem with
    | None => (Throw TypeError, a)
    | Some _ =>
        let a1 := set_taskList (detach taskItem (taskList a)) a in
        (Return undefined, updateClearButton (updateEmptyState (saveTasks a1)))
    end.

(** [toggleComplete(taskElement, toggleButton)] *)
Definition toggleComplete (taskElement : node) : method :=
  fun a =>
    match heap a !! taskElement with
    | None => (Throw TypeError, a)
    | Some item =>
        let isCurrentlyCompleted := completed item in
        let a1 :=
          if isCurrentlyCompleted then
            let h := <[taskElement :=
                        mkTaskItem (dataset_id item) (textContent item) false]>
                       (heap a) in
            set_taskList (insertBefore_firstChild taskElement (taskList a))
              (set_heap h a)
          else
            let h := <[taskElement :=
                        mkTaskItem (dataset_id item) (textContent item) true]>
                       (heap a) in
            set_taskList (appendChild taskElement (taskList a))
              (set_heap h a) in
        (Return undefined, updateClearButton (saveTasks a1))
    end.

(** [clearCompletedTasks()]: the items whose content is completed are
    collected first, then removed one by one. *)
Definition is_completed (h : list TaskItem) (n : node) : bool :=
  match h !! n with
  | Some t => completed t
  | None => false
  end.

Definition clearCompletedTasks : method :=
  fun a =>
    let completedTasks := filter (fun n => is_completed (heap a) n = true)
                            (taskList a) in
    let a1 := foldl (fun a' taskItem =>
                       set_taskList (detach taskItem (taskList a')) a')
                a completedTasks in
    let a2 := set_clearCompletedBtn_show false a1 in
    (Return undefined, updateEmptyState (saveTasks a2)).

(** [isValidTaskData(taskData)], as the truth value of the [&&] chain. *)
Definition isValidTaskData (taskData : json) : bool :=
  truthy taskData
  && jstype_eqb (typeof (Some taskData)) Tobject
  && match get taskData "text" with
     | Some (JString text) =>
         (0 <? String.length (trim text))%nat
         && jstype_eqb (typeof (get taskData "completed")) Tboolean
     | _ => false
     end.

(** The fields of a record that passed [isValidTaskData]. *)
Definition text_of (taskData : json) : string :=
  match get taskData "text" with
  | Some (JString s) => s
  | _ => ""
  end.

Definition completed_of (taskData : json) : bool :=
  match get taskData "completed" with
  | Some (JBool b) => b
  | _ => false
  end.

(** The loop of [loadTasks], which walks the array from its last element to
    its first: [pending] is what remains to be visited, in visiting order.
    An exception leaves the loop with the counters and the state reached. *)
Fixpoint loadTasks_loop (pending : list json)
    (validTaskCount invalidTaskCount : nat) (a : TodoApp)
    : option error * (nat * nat) * TodoApp :=
  match pending with
  | [] => (None, (validTaskCount, invalidTaskCount), a)
  | taskData :: rest =>
      if isValidTaskData taskData then
        match addTask (text_of taskData) (completed_of taskData)
                (get taskData "id") a with
        | (Return _, a') =>
            loadTasks_loop rest (S validTaskCount) invalidTaskCount a'
        | (Throw e, a') => (Some e, (validTaskCount, invalidTaskCount), a')
        end
      else
        loadTasks_loop rest validTaskCount (S invalidTaskCount)
          (console_log (warn_skipped taskData) a)
  end.

(** The [catch] block of [loadTasks]. *)
Definition loadTasks_catch (e : error) (a : TodoApp) : TodoApp :=
  let a1 := console_log (error_load_failed e) a in
  let a2 := alert (DATA_CORRUPT e) a1 in
  let a3 := set_localStorage None a2 in
  updateClearButton (updateEmptyState a3).

(** [loadTasks()] *)
Definition loadTasks : method :=
  fun a =>
    let a' :=
      match localStorage a with
      | None | Some Blank => a
      | Some Malformed => loadTasks_catch SyntaxError a
      | Some (Json (JArray tasks)) =>
          match loadTasks_loop (rev tasks) 0 0 a with
          | (None, (validTaskCount, invalidTaskCount), a1) =>
              if (0 <? invalidTaskCount)%nat
              then console_log (warn_summary validTaskCount invalidTaskCount) a1
              else a1
          | (Some e, _, a1) => loadTasks_catch e a1
          end
      | Some (Json _) => loadTasks_catch NotAnArrayError a
      end in
    (Return undefined, updateClearButton a').

(** [init()]; the event wiring of [bindEvents] is the function [dispatch]
    further down. *)
Definition init (a : TodoApp) : TodoApp :=
  updateEmptyState (snd (loadTasks (createEmptyState a))).

(** [new TodoApp()] on a freshly loaded page: an empty input, an empty list,
    a hidden clear button, and whatever the slot and the clock hold. *)
Definition page (slot : option stored) (clk : nat -> Z) : TodoApp :=
  mkTodoApp "" [] [] false display_unset slot [] [] clk 0.

Definition new_TodoApp (slot : option stored) (clk : nat -> Z) : TodoApp :=
  init (page slot clk).

(** ** Events *)

(** The class of the element a click in the list landed on. *)
Inductive target : Type := delete_btn | complete_btn | elsewhere.

(** The click listener of the list: [taskItem] is
    [e.target.closest('.task-item')], [None] when there is none. *)
Definition taskList_onclick (taskItem : option node) (t : target) : method :=
  fun a =>
    match taskItem with
    | None => (Return undefined, a)
    | Some taskItem =>
        match t with
        | delete_btn => deleteTask taskItem a
        | complete_btn => toggleComplete taskItem a
        | elsewhere => (Return undefined, a)
        end
    end.

(** What the user can do.  A click in the list lands on a rendered item or
    on none, so the enclosing task item of a click is a child of the list. *)
Inductive event : Type :=
  | type_text (s : string)
  | click_add
  | click_item (taskItem : node) (t : target)
  | click_clear.

Definition closest_task_item (taskItem : node) (a : TodoApp) : option node :=
  if decide (taskItem ∈ taskList a) then Some taskItem else None.

Definition dispatch (e : event) (a : TodoApp) : TodoApp :=
  match e with
  | type_text s => set_taskInput_value s a
  | click_add => snd (handleAdd a)
  | click_item taskItem t =>
      snd (taskList_onclick (closest_task_item taskItem a) t a)
  | click_clear => snd (clearCompletedTasks a)
  end.

Definition run (es : list event) (a : TodoApp) : TodoApp :=
  foldl (fun a' e => dispatch e a') a es.

(** The states the application can be in: a page was opened on some slot and
    some clock, and events followed. *)
Definition reachable (a : TodoApp) : Prop :=
  exists slot clk es, a = run es (new_TodoApp slot clk).

(** ** Properties of states and lists *)

(** Every child of the list is an element that exists. *)
Definition wf (a : TodoApp) : Prop :=
  Forall (fun n => n < length (heap a)) (taskList a).

(** Incomplete-first ordering: every incomplete task precedes every
    completed task. *)
Definition incomplete_first (l : list TaskItem) : Prop :=
  forall i j x y,
    l !! i = Some x -> l !! j = Some y ->
    completed x = false -> completed y = true -> i < j.

(** The same, as a split of the list into an incomplete and a completed
    region. *)
Definition regions (l : list TaskItem) : Prop :=
  exists l1 l2,
    l = l1 ++ l2
    /\ Forall (fun t => completed t = false) l1
    /\ Forall (fun t => completed t = true) l2.

(** What [saveTasks] writes for a list of tasks. *)
Definition saved (l : list TaskItem) : stored :=
  Json (JArray (map task_to_json l)).

(** A stored record whose [id], when truthy, converts to a string. *)
Definition id_converts (taskData : json) : bool :=
  match get taskData "id" with
  | Some v => if truthy v then bool_decide (is_Some (ToString v)) else true
  | None => true
  end.

(** [t] is the task item [addTask] builds from the stored record
    [taskData]: same text, same flag, and the stored id when it is truthy,
    else a reading of the clock. *)
Definition loaded_from (clk : nat -> Z) (taskData : json) (t : TaskItem)
    : Prop :=
  textContent t = text_of taskData
  /\ completed t = completed_of taskData
  /\ match get taskData "id" with
     | Some v =>
         if truthy v then ToString v = Some (dataset_id t)
         else exists k, dataset_id t = number_to_string (clk k)
     | None => exists k, dataset_id t = number_to_string (clk k)
     end.

Definition valid_incomplete (taskData : json) : bool :=
  isValidTaskData taskData && negb (completed_of taskData).

Definition valid_completed (taskData : json) : bool :=
  isValidTaskData taskData && completed_of taskData.

(** The text of a task as the data model wants it: trimmed, not empty, and
    within the length limit. *)
Definition text_ok (t : TaskItem) : Prop :=
  trim (textContent t) = textContent t
  /\ textContent t <> ""
  /\ String.length (textContent t) <= MAX_TASK_LENGTH.

(** ** Example states *)

(** A clock that advances by a millisecond per reading, and one that does
    not advance between readings. *)
Definition clock_example (k : nat) : Z := (1700000000000 + Z.of_nat k)%Z.

Definition clock_stalled (k : nat) : Z := 1700000000000%Z.

(** A page with two tasks, the older one completed. *)
Definition two_tasks : TodoApp :=
  run [type_text "Buy milk"; click_add; type_text "Walk dog"; click_add;
       click_item 0 complete_btn]
    (new_TodoApp None clock_example).

(** The same page once the other task is completed too. *)
Definition two_completed : TodoApp :=
  run [click_item 1 complete_btn] two_tasks.

(** The same page after "Buy milk" was deleted: its element, node 0, still
    exists but is no longer in the list. *)
Definition one_deleted : TodoApp :=
  run [click_item 0 delete_btn] two_tasks.

(** A stored record without an [id], as the first version of the
    application wrote them. *)
Definition record_without_id (text : string) (completed : bool) : json :=
  JObject [("text", JString text); ("completed", JBool completed)].

(** A record without a [text]. *)
Definition record_without_text : json :=
  JObject [("id", JString "7"); ("completed", JBool false)].

(** A text of [n] letters followed by a space. *)
Fixpoint letters (n : nat) : string :=
  match n with
  | O => EmptyString
  | S n' => String "a"%char (letters n')
  end.

Definition padded_text : string := letters 200 +:+ " ".

(** ** Further properties of states *)

(** The children of the list are distinct elements that exist. *)
Definition dom_ok (a : TodoApp) : Prop :=
  wf a /\ NoDup (taskList a).

(** The clear button and the empty-state banner agree with the list: the
    button shows when some task is completed, the banner when there is no
    task. *)
Definition view_ok (a : TodoApp) : Prop :=
  clearCompletedBtn_show a = existsb completed (tasks a)
  /\ emptyState_display a
     = if (0 <? length (taskList a))%nat then display_none else display_block.

(** The slot holds exactly the list. *)
Definition in_sync (a : TodoApp) : Prop :=
  localStorage a = Some (saved (tasks a)).

(** No two incomplete tasks have the same text, letter case aside. *)
Definition distinct_incomplete (l : list TaskItem) : Prop :=
  NoDup (map (fun t => toLowerCase (textContent t))
           (filter (fun t => completed t = false) l)).

(** What holds throughout a session that began with an empty slot: the
    texts are as the data model wants them, no id is empty, and the slot
    holds the list as soon as anything was saved. *)
Definition session_ok (a : TodoApp) : Prop :=
  wf a
  /\ Forall text_ok (tasks a)
  /\ Forall (fun t => dataset_id t <> "") (tasks a)
  /\ (in_sync a \/ (localStorage a = None /\ tasks a = [])).

(** Every element got its id from a reading of the clock, each from a
    reading of its own. *)
Definition stamped (a : TodoApp) : Prop :=
  exists ks : list nat,
    Forall2 (fun k t => dataset_id t = number_to_string (clock a k))
      ks (heap a)
    /\ Forall (fun k => k < ticks a) ks
    /\ NoDup ks.

(** A clock that moves between any two readings. *)
Definition advancing (clk : nat -> Z) : Prop :=
  forall i j, i < j -> (clk i < clk j)%Z.

(** The checks [handleAdd] makes before it adds the input [v] to a list
    [l]: not empty, not blank, within the limit as typed, and not the text
    of an incomplete task. *)
Definition acceptable (v : string) (l : list TaskItem) : Prop :=
  v <> "" /\ trim v <> "" /\ String.length v <= MAX_TASK_LENGTH
  /\ forall u, u ∈ l -> completed u = false ->
                toLowerCase (textContent u) <> toLowerCase (trim v).

(** ** Stored records, in the words of the specification *)







(** ** Strings *)

Section Strings.

Lemma is_whitespace_lower_char c :
  is_whitespace (lower_char c) = is_whitespace c.
Proof. destruct c as [[] [] [] [] [] [] [] []]; reflexivity. Qed.

Lemma toLowerCase_trimStart s :
  toLowerCase (trimStart s) = trimStart (toLowerCase s).
Proof.
  induction s as [|c s IH]; simpl; [done|].
  rewrite is_whitespace_lower_char.
  destruct (is_whitespace c); simpl; congruence.
Qed.

Lemma toLowerCase_trimEnd s :
  toLowerCase (trimEnd s) = trimEnd (toLowerCase s).
Proof.
  induction s as [|c s IH]; simpl; [done|].
  rewrite <- IH, is_whitespace_lower_char.
  destruct (trimEnd s); simpl; [destruct (is_whitespace c)|]; done.
Qed.

(** Lower-casing commutes with trimming: it maps no character to or from
    white space. *)
Lemma toLowerCase_trim s : toLowerCase (trim s) = trim (toLowerCase s).
Proof. unfold trim. by rewrite toLowerCase_trimEnd, toLowerCase_trimStart. Qed.

Lemma length_toLowerCase s : String.length (toLowerCase s) = String.length s.
Proof. induction s; simpl; congruence. Qed.

Lemma toLowerCase_nil s : toLowerCase s = "" -> s = "".
Proof. by destruct s. Qed.

Lemma length_trimStart s : String.length (trimStart s) <= String.length s.
Proof.
  induction s as [|c s IH]; simpl; [done|].
  destruct (is_whitespace c); simpl; lia.
Qed.

Lemma length_trimEnd s : String.length (trimEnd s) <= String.length s.
Proof.
  induction s as [|c s IH]; simpl; [done|].
  destruct (trimEnd s); [destruct (is_whitespace c)|]; simpl in *; lia.
Qed.

Lemma length_trim s : String.length (trim s) <= String.length s.
Proof.
  unfold trim. etrans; [apply length_trimEnd | apply length_trimStart].
Qed.

Lemma eqb_empty_false s : s <> "" -> String.eqb s "" = false.
Proof. intros H. by apply String.eqb_neq. Qed.

End Strings.

(** ** The list of tasks behind a list of nodes *)

Section Tasks.

Implicit Types (h : list TaskItem) (l : list node) (n : node).

Lemma tasks_of_app h l1 l2 :
  tasks_of h (l1 ++ l2) = tasks_of h l1 ++ tasks_of h l2.
Proof. apply omap_app. Qed.

Lemma tasks_of_step h n l :
  tasks_of h (n :: l)
  = match h !! n with
    | Some t => t :: tasks_of h l
    | None => tasks_of h l
    end.
Proof. reflexivity. Qed.

Lemma tasks_of_cons h n l t :
  h !! n = Some t -> tasks_of h (n :: l) = t :: tasks_of h l.
Proof. intros H. by rewrite tasks_of_step, H. Qed.

Lemma tasks_of_singleton h n t : h !! n = Some t -> tasks_of h [n] = [t].
Proof. intros H. by rewrite (tasks_of_cons _ _ _ t). Qed.

(** Allocating an element changes no task of a well-formed list. *)
Lemma tasks_of_alloc h l t :
  Forall (fun n => n < length h) l -> tasks_of (h ++ [t]) l = tasks_of h l.
Proof.
  induction 1 as [|n l Hn _ IH]; [done|].
  rewrite !tasks_of_step, IH. by rewrite lookup_app_l.
Qed.

Lemma detach_fresh h l :
  Forall (fun n => n < length h) l -> detach (length h) l = l.
Proof.
  unfold detach. induction 1 as [|n l Hn _ IH]; [done|].
  rewrite filter_cons_True by lia. by rewrite IH.
Qed.

(** Writing to the element [n] changes no task of a list without [n]. *)
Lemma tasks_of_insert_detach h n t l :
  tasks_of (<[n := t]> h) (detach n l) = tasks_of h (detach n l).
Proof.
  unfold detach. induction l as [|m l IH]; [done|].
  destruct (decide (m = n)) as [->|Hne].
  - by rewrite filter_cons_False by naive_solver.
  - rewrite filter_cons_True by done.
    rewrite !tasks_of_step, IH. by rewrite list_lookup_insert_ne.
Qed.

Lemma tasks_of_filter_sublist h (P : node -> Prop) `{!forall n, Decision (P n)} l :
  sublist (tasks_of h (filter P l)) (tasks_of h l).
Proof.
  induction l as [|m l IH]; [done|].
  destruct (decide (P m)).
  - rewrite filter_cons_True by done. rewrite !tasks_of_step.
    destruct (h !! m); [by constructor | done].
  - rewrite filter_cons_False by done. rewrite tasks_of_step.
    destruct (h !! m); [by constructor | done].
Qed.

Lemma detach_bound (k : nat) n l :
  Forall (fun m => m < k) l -> Forall (fun m => m < k) (detach n l).
Proof.
  intros H. unfold detach. rewrite Forall_forall in *.
  intros m Hm. apply H. by apply list_elem_of_filter in Hm as [_ ?].
Qed.

Lemma not_elem_of_detach n l : n ∉ l -> detach n l = l.
Proof.
  unfold detach. induction l as [|m l IH]; [done|].
  intros Hn. apply not_elem_of_cons in Hn as [? ?].
  rewrite filter_cons_True by done. by rewrite IH.
Qed.

End Tasks.

(** ** Incomplete-first ordering *)

Section Ordering.

Implicit Types (l : list TaskItem) (t : TaskItem).

Lemma regions_incomplete_first l : regions l -> incomplete_first l.
Proof.
  intros (l1 & l2 & -> & H1 & H2) i j x y Hi Hj Hx Hy.
  destruct (decide (i < length l1)) as [Hlt|Hge].
  - destruct (decide (j < length l1)) as [Hj1|Hj1]; [|lia].
    rewrite lookup_app_l in Hj by done.
    rewrite Forall_lookup in H1. specialize (H1 _ _ Hj). congruence.
  - rewrite lookup_app_r in Hi by lia.
    rewrite Forall_lookup in H2. specialize (H2 _ _ Hi). congruence.
Qed.

Lemma incomplete_first_regions l : incomplete_first l -> regions l.
Proof.
  induction l as [|t l IH]; intros H.
  - exists [], []. by repeat split.
  - destruct (completed t) eqn:Ht.
    + exists [], (t :: l). repeat split; [done|].
      constructor; [done|]. apply Forall_lookup. intros j y Hj.
      destruct (completed y) eqn:Hy; [done|].
      specialize (H (S j) 0 y t Hj eq_refl Hy Ht). lia.
    + destruct IH as (l1 & l2 & -> & H1 & H2).
      { intros i j x y Hi Hj Hx Hy.
        specialize (H (S i) (S j) x y Hi Hj Hx Hy). lia. }
      exists (t :: l1), l2. repeat split; [|done]. by constructor.
Qed.

Lemma regions_cons_incomplete t l :
  completed t = false -> regions l -> regions (t :: l).
Proof.
  intros Ht (l1 & l2 & -> & H1 & H2).
  exists (t :: l1), l2. repeat split; [|done]. by constructor.
Qed.

Lemma regions_snoc_completed t l :
  completed t = true -> regions l -> regions (l ++ [t]).
Proof.
  intros Ht (l1 & l2 & -> & H1 & H2).
  exists l1, (l2 ++ [t]). repeat split; [by rewrite app_assoc|done|].
  apply Forall_app. split; [done|]. by constructor.
Qed.

Lemma Forall_sublist_of {A} (P : A -> Prop) (k l : list A) :
  sublist k l -> Forall P l -> Forall P k.
Proof.
  intros Hs Hl. rewrite Forall_forall in *. intros x Hx.
  apply Hl. by apply (sublist_subseteq _ _ Hs).
Qed.

Lemma regions_sublist k l : sublist k l -> regions l -> regions k.
Proof.
  intros Hs (l1 & l2 & -> & H1 & H2).
  apply sublist_app_r in Hs as (k1 & k2 & -> & Hk1 & Hk2).
  exists k1, k2. repeat split; by eapply Forall_sublist_of.
Qed.

Lemma regions_nil : regions [].
Proof. exists [], []. by repeat split. Qed.

End Ordering.

(** ** The methods, one by one *)

Section Methods.

Implicit Types (a : TodoApp) (n : node) (t : TaskItem).

(** [id || Date.now()] touches nothing but the count of clock readings. *)
Lemma id_or_now_frame id a :
  let a1 := snd (id_or_now id a) in
  taskInput_value a1 = taskInput_value a /\ heap a1 = heap a
  /\ taskList a1 = taskList a /\ localStorage a1 = localStorage a
  /\ alerts a1 = alerts a /\ console a1 = console a /\ clock a1 = clock a
  /\ clearCompletedBtn_show a1 = clearCompletedBtn_show a.
Proof.
  destruct id as [v|]; simpl; [destruct (truthy v)|]; simpl; by repeat split.
Qed.

Lemma lookup_alloc (h : list TaskItem) t : (h ++ [t]) !! length h = Some t.
Proof. by rewrite lookup_app_r, Nat.sub_diag by lia. Qed.

(** [addTask] with an id that converts: a new element, at the head of the
    list if incomplete and at the tail if completed, and the list saved. *)
Lemma addTask_spec text c id a sid :
  wf a -> ToString (fst (id_or_now id a)) = Some sid ->
  let t := mkTaskItem sid text c in
  let a' := snd (addTask text c id a) in
  fst (addTask text c id a) = Return undefined
  /\ heap a' = heap a ++ [t]
  /\ taskList a'
     = (if c then taskList a ++ [length (heap a)]
        else length (heap a) :: taskList a)
  /\ tasks a' = (if c then tasks a ++ [t] else t :: tasks a)
  /\ localStorage a' = Some (saved (tasks a'))
  /\ alerts a' = alerts a /\ console a' = console a /\ clock a' = clock a
  /\ taskInput_value a' = taskInput_value a.
Proof.
  intros Hwf Hid t a'. subst a'. unfold addTask.
  pose proof (id_or_now_frame id a) as Hfr.
  destruct (id_or_now id a) as [v a1]. simpl in Hid, Hfr.
  destruct Hfr as (Hin & Hh & Hl & Hs & Hal & Hco & Hck & _).
  rewrite Hid. unfold wf in Hwf. rewrite <- Hh, <- Hl in Hwf.
  assert (Htl : taskList (insertTaskIntoList (length (heap a1)) c
                            (set_heap (heap a1 ++ [t]) a1))
                = if c then taskList a1 ++ [length (heap a1)]
                  else length (heap a1) :: taskList a1).
  { unfold insertTaskIntoList, appendChild, insertBefore_firstChild.
    destruct c; simpl; by rewrite detach_fresh. }
  assert (Hts : tasks (insertTaskIntoList (length (heap a1)) c
                         (set_heap (heap a1 ++ [t]) a1))
                = if c then tasks a ++ [t] else t :: tasks a).
  { unfold tasks at 1. rewrite Htl.
    replace (heap (insertTaskIntoList (length (heap a1)) c
                     (set_heap (heap a1 ++ [t]) a1)))
      with (heap a1 ++ [t]) by (unfold insertTaskIntoList; by destruct c).
    unfold tasks. rewrite <- Hh, <- Hl. destruct c.
    - rewrite tasks_of_app, tasks_of_alloc by done.
      by rewrite (tasks_of_singleton _ _ t) by apply lookup_alloc.
    - rewrite (tasks_of_cons _ _ _ t) by apply lookup_alloc.
      by rewrite tasks_of_alloc. }
  simpl. rewrite <- Hh, <- Hl, <- Hal, <- Hco, <- Hck, <- Hin.
  repeat split; unfold insertTaskIntoList; by destruct c.
Qed.

Lemma addTask_wf text c id a : wf a -> wf (snd (addTask text c id a)).
Proof.
  intros Hwf. destruct (ToString (fst (id_or_now id a))) as [sid|] eqn:Hid.
  - destruct (addTask_spec text c id a sid Hwf Hid)
      as (_ & Hh & Hl & _). unfold wf. rewrite Hh, Hl, length_app. simpl.
    destruct c.
    + apply Forall_app. split; [|constructor; [lia|done]].
      eapply Forall_impl; [exact Hwf|]. simpl. lia.
    + constructor; [lia|].
      eapply Forall_impl; [exact Hwf|]. simpl. lia.
  - unfold addTask. pose proof (id_or_now_frame id a) as Hfr.
    destruct (id_or_now id a) as [v a1]. simpl in Hid, Hfr.
    destruct Hfr as (_ & Hh & Hl & _). rewrite Hid. simpl.
    unfold wf. by rewrite Hh, Hl.
Qed.

(** [deleteTask]: the element leaves the list; nothing is thrown for an
    element, in the list or not. *)
Lemma deleteTask_spec n a t :
  heap a !! n = Some t ->
  let a' := snd (deleteTask n a) in
  fst (deleteTask n a) = Return undefined
  /\ heap a' = heap a
  /\ taskList a' = detach n (taskList a)
  /\ localStorage a' = Some (saved (tasks a'))
  /\ alerts a' = alerts a.
Proof. intros H. unfold deleteTask. rewrite H. by repeat split. Qed.

Lemma deleteTask_wf n a : wf a -> wf (snd (deleteTask n a)).
Proof.
  intros Hwf. unfold deleteTask. destruct (heap a !! n); [|done].
  unfold wf. simpl. by apply detach_bound.
Qed.

(** [toggleComplete]: the flag flips, and the element moves to the head
    when it becomes incomplete and to the tail when it becomes completed. *)
Lemma toggleComplete_spec n a t :
  heap a !! n = Some t ->
  let t' := mkTaskItem (dataset_id t) (textContent t) (negb (completed t)) in
  let a' := snd (toggleComplete n a) in
  fst (toggleComplete n a) = Return undefined
  /\ heap a' = <[n := t']> (heap a)
  /\ taskList a'
     = (if completed t then n :: detach n (taskList a)
        else detach n (taskList a) ++ [n])
  /\ tasks a'
     = (if completed t then t' :: tasks_of (heap a) (detach n (taskList a))
        else tasks_of (heap a) (detach n (taskList a)) ++ [t'])
  /\ localStorage a' = Some (saved (tasks a'))
  /\ alerts a' = alerts a.
Proof.
  intros H t' a'. subst a'. unfold toggleComplete. rewrite H.
  assert (Hn : n < length (heap a)) by (by eapply lookup_lt_Some).
  assert (Hl : <[n := t']> (heap a) !! n = Some t')
    by (by apply list_lookup_insert_eq).
  subst t'. destruct (completed t) eqn:Hc; simpl in *.
  - repeat split; unfold tasks; cbn [heap taskList set_heap set_taskList
        saveTasks updateClearButton set_localStorage
        set_clearCompletedBtn_show fst snd localStorage alerts];
      unfold insertBefore_firstChild;
      rewrite ?(tasks_of_cons _ _ _ _ Hl), ?tasks_of_insert_detach; done.
  - repeat split; unfold tasks; cbn [heap taskList set_heap set_taskList
        saveTasks updateClearButton set_localStorage
        set_clearCompletedBtn_show fst snd localStorage alerts];
      unfold appendChild;
      rewrite ?tasks_of_app, ?(tasks_of_singleton _ _ _ Hl),
        ?tasks_of_insert_detach; done.
Qed.

Lemma toggleComplete_wf n a : wf a -> wf (snd (toggleComplete n a)).
Proof.
  intros Hwf. destruct (heap a !! n) as [t|] eqn:H.
  - destruct (toggleComplete_spec n a t H) as (_ & Hh & Hl & _).
    assert (Hn : n < length (heap a)) by (by eapply lookup_lt_Some).
    unfold wf. rewrite Hh, Hl, length_insert.
    destruct (completed t).
    + constructor; [done|]. by apply detach_bound.
    + apply Forall_app. split; [by apply detach_bound|by constructor].
  - unfold toggleComplete. by rewrite H.
Qed.

(** Removing the collected nodes one by one removes exactly them. *)
Lemma foldl_detach (cs : list node) a :
  let a1 := foldl (fun a' taskItem =>
                     set_taskList (detach taskItem (taskList a')) a') a cs in
  taskList a1 = filter (fun n => n ∉ cs) (taskList a)
  /\ heap a1 = heap a /\ alerts a1 = alerts a /\ console a1 = console a
  /\ clock a1 = clock a /\ taskInput_value a1 = taskInput_value a.
Proof.
  revert a. induction cs as [|c cs IH]; intros a; simpl.
  - repeat split. induction (taskList a) as [|m l IHl]; [done|].
    rewrite filter_cons_True by apply not_elem_of_nil. by rewrite <- IHl.
  - destruct (IH (set_taskList (detach c (taskList a)) a))
      as (Hl & Hh & Hal & Hco & Hck & Hin).
    repeat split; try done.
    rewrite Hl. simpl. unfold detach. rewrite list_filter_filter.
    apply list_filter_iff. intros m. rewrite not_elem_of_cons. naive_solver.
Qed.

Lemma tasks_of_filter_completed (h : list TaskItem) (cs l : list node) :
  (forall n, n ∈ l -> (n ∈ cs <-> is_completed h n = true)) ->
  tasks_of h (filter (fun n => n ∉ cs) l)
  = filter (fun t => completed t = false) (tasks_of h l).
Proof.
  induction l as [|m l IH]; intros Hcs; [done|].
  assert (Hm := Hcs m (list_elem_of_here _ _)).
  rewrite tasks_of_step. unfold is_completed in Hm.
  assert (IH' := IH (fun n Hn => Hcs n (list_elem_of_further _ _ _ Hn))).
  destruct (decide (m ∈ cs)) as [Hin|Hnin].
  - rewrite filter_cons_False by naive_solver.
    destruct (h !! m) as [t|]; [|by apply Hm in Hin].
    apply Hm in Hin. rewrite filter_cons_False by congruence. exact IH'.
  - rewrite filter_cons_True by done. rewrite tasks_of_step.
    destruct (h !! m) as [t|]; [|exact IH'].
    rewrite filter_cons_True by (destruct (completed t); naive_solver).
    by rewrite IH'.
Qed.

(** [clearCompletedTasks]: what stays is the incomplete tasks, in order;
    the call returns [undefined]. *)
Lemma clearCompletedTasks_spec a :
  let a' := snd (clearCompletedTasks a) in
  fst (clearCompletedTasks a) = Return undefined
  /\ heap a' = heap a
  /\ tasks a' = filter (fun t => completed t = false) (tasks a)
  /\ localStorage a' = Some (saved (tasks a'))
  /\ alerts a' = alerts a.
Proof.
  unfold clearCompletedTasks.
  set (cs := filter (fun n => is_completed (heap a) n = true) (taskList a)).
  destruct (foldl_detach cs a) as (Hl & Hh & Hal & _).
  assert (Hts : tasks (foldl (fun a' taskItem =>
                         set_taskList (detach taskItem (taskList a')) a') a cs)
                = filter (fun t => completed t = false) (tasks a)).
  { unfold tasks. rewrite Hl, Hh. apply tasks_of_filter_completed.
    intros n Hn. subst cs. rewrite list_elem_of_filter. naive_solver. }
  simpl. by repeat split.
Qed.

Lemma clearCompletedTasks_wf a : wf a -> wf (snd (clearCompletedTasks a)).
Proof.
  intros Hwf. unfold clearCompletedTasks.
  set (cs := filter (fun n => is_completed (heap a) n = true) (taskList a)).
  destruct (foldl_detach cs a) as (Hl & Hh & _).
  unfold wf in *. simpl. rewrite Hl, Hh. rewrite Forall_forall in *.
  intros m Hm. apply Hwf. by apply list_elem_of_filter in Hm as [_ ?].
Qed.

(** [handleAdd] on a text that passes every check. *)
Lemma handleAdd_success a :
  let v := taskInput_value a in
  wf a -> v <> "" -> trim v <> "" -> String.length v <= MAX_TASK_LENGTH ->
  (forall u, u ∈ tasks a -> completed u = false ->
             toLowerCase (textContent u) <> toLowerCase (trim v)) ->
  let t := mkTaskItem (number_to_string (clock a (ticks a))) (trim v) false in
  let a' := snd (handleAdd a) in
  fst (handleAdd a) = Return undefined
  /\ heap a' = heap a ++ [t]
  /\ taskList a' = length (heap a) :: taskList a
  /\ tasks a' = t :: tasks a
  /\ localStorage a' = Some (saved (tasks a'))
  /\ alerts a' = alerts a
  /\ taskInput_value a' = "".
Proof.
  intros v Hwf Hne Htrim Hlen Hdup t a'. subst a'. unfold handleAdd.
  fold v. rewrite (eqb_empty_false v), (eqb_empty_false (trim v)) by done.
  replace (MAX_TASK_LENGTH <? String.length v)%nat with false
    by (symmetry; by apply Nat.ltb_ge).
  replace (existsb _ (tasks a)) with false.
  2:{ symmetry. apply not_true_is_false. intros Hex.
      apply existsb_exists in Hex as (u & Hu & Hex).
      apply andb_true_iff in Hex as [Heq Hc].
      apply String.eqb_eq in Heq. apply negb_true_iff in Hc.
      apply (Hdup u); [by apply list_elem_of_In|done|done]. }
  destruct (addTask_spec (trim v) false None a
              (number_to_string (clock a (ticks a))) Hwf eq_refl)
    as (Hr & Hh & Hl & Hts & Hs & Hal & _).
  destruct (addTask (trim v) false None a) as [c a1]. simpl in *.
  subst c. simpl. by repeat split.
Qed.

(** Whatever [handleAdd] does, the list stays well formed. *)
Lemma handleAdd_wf a : wf a -> wf (snd (handleAdd a)).
Proof.
  intros Hwf. unfold handleAdd.
  repeat (match goal with |- context [if ?b then _ else _] =>
                            destruct b end); try done.
  pose proof (addTask_wf (trim (taskInput_value a)) false None a Hwf) as H.
  by destruct (addTask _ _ _ a) as [[?|?] ?].
Qed.

(** The records [isValidTaskData] accepts: objects with a string [text]
    that does not trim to nothing and a boolean [completed]. *)
Lemma isValidTaskData_iff taskData :
  isValidTaskData taskData = true
  <-> exists props s b,
        taskData = JObject props
        /\ lookup_prop "text" props = Some (JString s)
        /\ trim s <> ""
        /\ lookup_prop "completed" props = Some (JBool b).
Proof.
  unfold isValidTaskData. split.
  - destruct taskData as [|b0|n0|s0|elems|props]; simpl;
      rewrite ?andb_false_r; try done.
    destruct (lookup_prop "text" props) as [[|b1|n1|s|e1|p1]|] eqn:Ht;
      try done.
    destruct (lookup_prop "completed" props) as [[|b|n2|s2|e2|p2]|] eqn:Hc;
      simpl; rewrite ?andb_false_r; try done.
    rewrite andb_true_r. intros Hlen%Nat.ltb_lt.
    exists props, s, b. repeat split; try done.
    intros Hs. rewrite Hs in Hlen. simpl in Hlen. lia.
  - intros (props & s & b & -> & Ht & Hs & Hc). simpl. rewrite Ht, Hc. simpl.
    rewrite andb_true_r. apply Nat.ltb_lt.
    destruct (trim s); [done|simpl; lia].
Qed.

Lemma Forall2_rev {A B} (P : A -> B -> Prop) (l : list A) (k : list B) :
  Forall2 P l k -> Forall2 P (rev l) (rev k).
Proof.
  induction 1 as [|x y l k Hxy _ IH]; simpl; [done|].
  apply Forall2_app; [done|by constructor].
Qed.

(** A stored id that converts gives [addTask] a string for [dataset.id]. *)
Lemma id_converts_ToString taskData a :
  id_converts taskData = true ->
  exists sid,
    ToString (fst (id_or_now (get taskData "id") a)) = Some sid
    /\ match get taskData "id" with
       | Some v =>
           if truthy v then ToString v = Some sid
           else exists k, sid = number_to_string (clock a k)
       | None => exists k, sid = number_to_string (clock a k)
       end.
Proof.
  unfold id_converts, id_or_now.
  destruct (get taskData "id") as [v|]; [destruct (truthy v)|]; simpl.
  - intros [sid Hsid]%bool_decide_eq_true. by exists sid.
  - intros _. eexists. split; [done|]. by eexists.
  - intros _. eexists. split; [done|]. by eexists.
Qed.

(** The loop of [loadTasks], when no conversion of an id throws: it runs to
    its end; the valid records it meets go to the head of the list when
    incomplete and to the tail when completed, the others are skipped with a
    warning each. *)
Lemma loadTasks_loop_spec pending :
  forall validTaskCount invalidTaskCount a,
    wf a ->
    (forall d, d ∈ pending -> isValidTaskData d = true ->
               id_converts d = true) ->
    exists a' inc comp,
      loadTasks_loop pending validTaskCount invalidTaskCount a
      = (None,
         (validTaskCount + length (List.filter isValidTaskData pending),
          invalidTaskCount
          + length (List.filter (fun d => negb (isValidTaskData d)) pending)),
         a')
      /\ tasks a' = rev inc ++ tasks a ++ comp
      /\ Forall2 (loaded_from (clock a))
           (List.filter valid_incomplete pending) inc
      /\ Forall2 (loaded_from (clock a))
           (List.filter valid_completed pending) comp
      /\ wf a' /\ alerts a' = alerts a /\ clock a' = clock a
      /\ console a'
         = rev (map warn_skipped
                  (List.filter (fun d => negb (isValidTaskData d)) pending))
           ++ console a
      /\ (localStorage a = Some (saved (tasks a))
          \/ existsb isValidTaskData pending = true ->
          localStorage a' = Some (saved (tasks a')))
      /\ (existsb isValidTaskData pending = false ->
          localStorage a' = localStorage a).
Proof.
  induction pending as [|d rest IH]; intros nv ni a Hwf Hids.
  - exists a, [], []. simpl. rewrite !Nat.add_0_r, app_nil_r.
    repeat split; try done. by intros [?|?].
  - simpl. unfold valid_incomplete, valid_completed.
    destruct (isValidTaskData d) eqn:Hv; simpl.
    + destruct (id_converts_ToString d a) as (sid & Hsid & Hfrom).
      { apply Hids; [left|done]. }
      destruct (addTask_spec (text_of d) (completed_of d) (get d "id") a sid
                  Hwf Hsid) as (Hr & Hh & Hl & Hts & Hs & Hal & Hco & Hck & _).
      pose proof (addTask_wf (text_of d) (completed_of d) (get d "id") a Hwf)
        as Hwf1.
      destruct (addTask (text_of d) (completed_of d) (get d "id") a)
        as [c a1]. simpl in *. subst c.
      destruct (IH (S nv) ni a1 Hwf1) as
        (a' & inc & comp & Hloop & Hts' & Hinc & Hcomp & Hwf' & Hal' & Hck'
         & Hco' & Hs' & _).
      { intros d' Hd'. apply Hids. by right. }
      rewrite Hck in Hinc, Hcomp.
      set (t := mkTaskItem sid (text_of d) (completed_of d)) in *.
      assert (Ht : loaded_from (clock a) d t).
      { repeat split; try done. }
      rewrite Hloop.
      destruct (completed_of d) eqn:Hc; simpl.
      * exists a', inc, (t :: comp).
        repeat split; try done; try congruence.
        -- do 3 f_equal. lia.
        -- rewrite Hts', Hts. by rewrite <- app_assoc.
        -- by constructor.
        -- intros _. apply Hs'. by left.
      * exists a', (t :: inc), comp.
        repeat split; try done; try congruence.
        -- do 3 f_equal. lia.
        -- rewrite Hts', Hts. simpl. by rewrite <- !app_assoc.
        -- by constructor.
        -- intros _. apply Hs'. by left.
    + destruct (IH nv (S ni) (console_log (warn_skipped d) a) Hwf) as
        (a' & inc & comp & Hloop & Hts' & Hinc & Hcomp & Hwf' & Hal' & Hck'
         & Hco' & Hs' & Hs'').
      { intros d' Hd'. apply Hids. by right. }
      exists a', inc, comp. rewrite Hloop, Hco'. simpl.
      repeat split; try done.
      * do 3 f_equal. lia.
      * by rewrite <- app_assoc.
Qed.

(** *** Ordering and well-formedness are kept by every method *)

Lemma addTask_regions text c id a :
  wf a -> regions (tasks a) -> regions (tasks (snd (addTask text c id a))).
Proof.
  intros Hwf Hreg.
  destruct (ToString (fst (id_or_now id a))) as [sid|] eqn:Hid.
  - destruct (addTask_spec text c id a sid Hwf Hid) as (_ & _ & _ & Hts & _).
    rewrite Hts. destruct c.
    + by apply regions_snoc_completed.
    + by apply regions_cons_incomplete.
  - unfold addTask. pose proof (id_or_now_frame id a) as Hfr.
    destruct (id_or_now id a) as [v a1]. simpl in Hid, Hfr.
    destruct Hfr as (_ & Hh & Hl & _). rewrite Hid. simpl.
    unfold tasks. by rewrite Hh, Hl.
Qed.

Lemma handleAdd_regions a :
  wf a -> regions (tasks a) -> regions (tasks (snd (handleAdd a))).
Proof.
  intros Hwf Hreg. unfold handleAdd.
  repeat (match goal with |- context [if ?b then _ else _] =>
                            destruct b end); try done.
  pose proof (addTask_regions (trim (taskInput_value a)) false None a
                Hwf Hreg) as H.
  by destruct (addTask _ _ _ a) as [[?|?] ?].
Qed.

Lemma deleteTask_regions n a :
  regions (tasks a) -> regions (tasks (snd (deleteTask n a))).
Proof.
  intros Hreg. unfold deleteTask. destruct (heap a !! n); [|done].
  simpl. eapply regions_sublist; [|exact Hreg].
  apply tasks_of_filter_sublist.
Qed.

Lemma toggleComplete_regions n a :
  regions (tasks a) -> regions (tasks (snd (toggleComplete n a))).
Proof.
  intros Hreg. destruct (heap a !! n) as [t|] eqn:H.
  - destruct (toggleComplete_spec n a t H) as (_ & _ & _ & Hts & _).
    rewrite Hts.
    assert (regions (tasks_of (heap a) (detach n (taskList a)))).
    { eapply regions_sublist; [|exact Hreg]. apply tasks_of_filter_sublist. }
    destruct (completed t).
    + by apply regions_cons_incomplete.
    + by apply regions_snoc_completed.
  - unfold toggleComplete. by rewrite H.
Qed.

Lemma clearCompletedTasks_regions a :
  regions (tasks a) -> regions (tasks (snd (clearCompletedTasks a))).
Proof.
  intros Hreg. destruct (clearCompletedTasks_spec a) as (_ & _ & Hts & _).
  rewrite Hts. eapply regions_sublist; [|exact Hreg]. apply sublist_filter.
Qed.

Lemma loadTasks_loop_inv pending :
  forall validTaskCount invalidTaskCount a,
    wf a -> regions (tasks a) ->
    let a' := snd (loadTasks_loop pending validTaskCount invalidTaskCount a) in
    wf a' /\ regions (tasks a').
Proof.
  induction pending as [|d rest IH]; intros nv ni a Hwf Hreg; simpl; [done|].
  destruct (isValidTaskData d).
  - pose proof (addTask_wf (text_of d) (completed_of d) (get d "id") a Hwf).
    pose proof (addTask_regions (text_of d) (completed_of d) (get d "id") a
                  Hwf Hreg).
    destruct (addTask _ _ _ a) as [[?|?] a1]; simpl in *; [|done].
    by apply IH.
  - by apply IH.
Qed.

Lemma loadTasks_inv a :
  wf a -> regions (tasks a) ->
  wf (snd (loadTasks a)) /\ regions (tasks (snd (loadTasks a))).
Proof.
  intros Hwf Hreg. unfold loadTasks. simpl.
  destruct (localStorage a) as [[| |[|b|n|s|l|props]]|]; try done.
  pose proof (loadTasks_loop_inv (rev l) 0 0 a Hwf Hreg) as H.
  destruct (loadTasks_loop (rev l) 0 0 a) as [[[e|] [nv ni]] a1];
    simpl in *; [done|].
  by destruct (0 <? ni)%nat.
Qed.

Lemma new_TodoApp_inv slot clk :
  wf (new_TodoApp slot clk) /\ regions (tasks (new_TodoApp slot clk)).
Proof.
  unfold new_TodoApp, init.
  apply (loadTasks_inv (createEmptyState (page slot clk))).
  - by constructor.
  - apply regions_nil.
Qed.

Lemma dispatch_inv e a :
  wf a /\ regions (tasks a) ->
  wf (dispatch e a) /\ regions (tasks (dispatch e a)).
Proof.
  intros [Hwf Hreg]. destruct e as [s| |n t|]; simpl.
  - done.
  - split; [by apply handleAdd_wf|by apply handleAdd_regions].
  - unfold taskList_onclick. destruct (closest_task_item n a); [|done].
    destruct t; [| |done].
    + split; [by apply deleteTask_wf|by apply deleteTask_regions].
    + split; [by apply toggleComplete_wf|by apply toggleComplete_regions].
  - split; [by apply clearCompletedTasks_wf|by apply clearCompletedTasks_regions].
Qed.

Lemma run_inv es a :
  wf a /\ regions (tasks a) -> wf (run es a) /\ regions (tasks (run es a)).
Proof.
  revert a. induction es as [|e es IH]; intros a H; [done|].
  simpl. apply IH. by apply dispatch_inv.
Qed.

Lemma reachable_inv a : reachable a -> wf a /\ regions (tasks a).
Proof.
  intros (slot & clk & es & ->). apply run_inv, new_TodoApp_inv.
Qed.

Lemma existsb_rev {A} (f : A -> bool) (l : list A) :
  existsb f (rev l) = existsb f l.
Proof.
  induction l as [|x l IH]; simpl; [done|].
  rewrite existsb_app, IH. simpl. rewrite orb_false_r. apply orb_comm.
Qed.

(** [loadTasks] on a slot that holds an array, when no conversion of an id
    throws: nothing is reported as corrupt; the valid incomplete records
    come first, in stored order, and the valid completed records last, in
    the reverse of their stored order. *)
Lemma loadTasks_array l a :
  wf a ->
  localStorage a = Some (Json (JArray l)) ->
  (forall d, d ∈ l -> isValidTaskData d = true -> id_converts d = true) ->
  let a' := snd (loadTasks a) in
  let invalid := List.filter (fun d => negb (isValidTaskData d)) l in
  exists inc comp,
    tasks a' = inc ++ tasks a ++ rev comp
    /\ Forall2 (loaded_from (clock a)) (List.filter valid_incomplete l) inc
    /\ Forall2 (loaded_from (clock a)) (List.filter valid_completed l) comp
    /\ alerts a' = alerts a
    /\ console a'
       = (if (0 <? length invalid)%nat
          then [warn_summary (length (List.filter isValidTaskData l))
                  (length invalid)]
          else [])
         ++ map warn_skipped invalid ++ console a
    /\ (existsb isValidTaskData l = true ->
        localStorage a' = Some (saved (tasks a')))
    /\ (existsb isValidTaskData l = false ->
        localStorage a' = Some (Json (JArray l))).
Proof.
  intros Hwf Hslot Hids a' invalid. subst a'.
  destruct (loadTasks_loop_spec (rev l) 0 0 a Hwf) as
    (a1 & inc & comp & Hloop & Hts & Hinc & Hcomp & _ & Hal & _ & Hco
     & Hs & Hs').
  { intros d Hd. apply Hids. apply list_elem_of_In. apply in_rev.
    by apply list_elem_of_In. }
  rewrite !filter_rev, !length_rev in Hloop.
  rewrite filter_rev, map_rev, rev_involutive in Hco.
  rewrite existsb_rev in Hs, Hs'.
  apply Forall2_rev in Hinc, Hcomp.
  rewrite filter_rev, rev_involutive in Hinc, Hcomp.
  exists (rev inc), (rev comp). rewrite rev_involutive.
  unfold loadTasks. rewrite Hslot, Hloop. simpl. fold invalid in Hco |- *.
  destruct (0 <? length invalid)%nat; simpl;
    repeat split; try done; try (intros H; rewrite Hs' by done; done);
    try (intros H; apply Hs; by right).
  by rewrite Hco.
Qed.

End Methods.

(** ** The ordering invariant *)

(** Claim C6.  Incomplete-first ordering is an invariant.  It holds in every
    state the application reaches (a page opened on any slot, which runs
    [loadTasks], followed by any events), and each of [handleAdd], [addTask],
    [toggleComplete], [deleteTask], [clearCompletedTasks] and [loadTasks]
    keeps it.  [addTask] puts an incomplete task at the head of the list
    and a completed one at the tail; [toggleComplete] moves a task it
    completes to the tail and a task it uncompletes to the head. *)
Theorem incomplete_first_invariant a :
  wf a -> incomplete_first (tasks a) ->
  (forall slot clk es, incomplete_first (tasks (run es (new_TodoApp slot clk))))
  /\ incomplete_first (tasks (snd (handleAdd a)))
  /\ (forall text c id, incomplete_first (tasks (snd (addTask text c id a))))
  /\ (forall n, incomplete_first (tasks (snd (toggleComplete n a))))
  /\ (forall n, incomplete_first (tasks (snd (deleteTask n a))))
  /\ incomplete_first (tasks (snd (clearCompletedTasks a)))
  /\ incomplete_first (tasks (snd (loadTasks a)))
  /\ (forall text id sid,
        ToString (fst (id_or_now id a)) = Some sid ->
        tasks (snd (addTask text false id a))
        = mkTaskItem sid text false :: tasks a
        /\ tasks (snd (addTask text true id a))
           = tasks a ++ [mkTaskItem sid text true])
  /\ (forall n t,
        heap a !! n = Some t ->
        let others := tasks_of (heap a) (detach n (taskList a)) in
        tasks (snd (toggleComplete n a))
        = if completed t
          then mkTaskItem (dataset_id t) (textContent t) false :: others
          else others ++ [mkTaskItem (dataset_id t) (textContent t) true]).
Proof.
  intros Hwf Hinc. apply incomplete_first_regions in Hinc.
  split; [|split; [|split; [|split; [|split; [|split; [|split; [|split]]]]]]].
  - intros slot clk es. apply regions_incomplete_first.
    apply (run_inv es), new_TodoApp_inv.
  - by apply regions_incomplete_first, handleAdd_regions.
  - intros. by apply regions_incomplete_first, addTask_regions.
  - intros. by apply regions_incomplete_first, toggleComplete_regions.
  - intros. by apply regions_incomplete_first, deleteTask_regions.
  - by apply regions_incomplete_first, clearCompletedTasks_regions.
  - by apply regions_incomplete_first, loadTasks_inv.
  - intros text id sid Hid.
    destruct (addTask_spec text false id a sid Hwf Hid) as (_ & _ & _ & H1 & _).
    destruct (addTask_spec text true id a sid Hwf Hid) as (_ & _ & _ & H2 & _).
    done.
  - intros n t Hn others.
    destruct (toggleComplete_spec n a t Hn) as (_ & _ & _ & Hts & _).
    rewrite Hts. by destruct (completed t).
Qed.

Lemma incomplete_first_invariant_witness :
  incomplete_first (tasks (snd (toggleComplete 1 two_tasks)))
  /\ tasks (snd (toggleComplete 1 two_tasks))
     = [mkTaskItem "1700000000000" "Buy milk" true;
        mkTaskItem "1700000000001" "Walk dog" true].
Proof.
  assert (Hwf : wf two_tasks).
  { unfold wf. vm_compute. repeat constructor. }
  assert (Hinc : incomplete_first (tasks two_tasks)).
  { apply regions_incomplete_first.
    exists [mkTaskItem "1700000000001" "Walk dog" false],
           [mkTaskItem "1700000000000" "Buy milk" true].
    split; [reflexivity|]. split; repeat constructor. }
  destruct (incomplete_first_invariant two_tasks Hwf Hinc)
    as (_ & _ & _ & Htog & _ & _ & _ & _ & Hmove).
  split; [apply Htog|].
  rewrite (Hmove 1 (mkTaskItem "1700000000001" "Walk dog" false) eq_refl).
  reflexivity.
Defined.

(** ** Loading *)

(** [loadTasks] on a slot that holds valid JSON other than an array: the
    list stays as it was, and the stored value is removed. *)
Lemma loadTasks_not_array v b :
  (forall l, v <> JArray l) ->
  localStorage b = Some (Json v) ->
  heap (snd (loadTasks b)) = heap b
  /\ taskList (snd (loadTasks b)) = taskList b
  /\ localStorage (snd (loadTasks b)) = None
  /\ alerts (snd (loadTasks b)) = DATA_CORRUPT NotAnArrayError :: alerts b.
Proof.
  intros Hv Hb. unfold loadTasks. rewrite Hb.
  destruct v as [|b0|n0|s0|elems|props]; try done.
  by destruct (Hv elems).
Qed.

Lemma new_TodoApp_not_array v clk :
  (forall l, v <> JArray l) ->
  let a := new_TodoApp (Some (Json v)) clk in
  tasks a = [] /\ localStorage a = None
  /\ alerts a = [DATA_CORRUPT NotAnArrayError].
Proof.
  intros Hv a. subst a. unfold new_TodoApp, init.
  set (p := createEmptyState (page (Some (Json v)) clk)).
  destruct (loadTasks_not_array v p Hv eq_refl) as (Hh & Hl & Hs & Hal).
  change (tasks (updateEmptyState (snd (loadTasks p))))
    with (tasks_of (heap (snd (loadTasks p))) (taskList (snd (loadTasks p)))).
  change (localStorage (updateEmptyState (snd (loadTasks p))))
    with (localStorage (snd (loadTasks p))).
  change (alerts (updateEmptyState (snd (loadTasks p))))
    with (alerts (snd (loadTasks p))).
  by rewrite Hh, Hl, Hs, Hal.
Qed.

(** Claim C8.  When the slot holds valid JSON that is not an array, the
    page opens with an empty list, the stored value is removed, and the
    corruption is reported.  [loadTasks] does so from any state: it leaves
    the list as it was, which on a new page is empty. *)
Theorem load_non_array v clk :
  (forall l, v <> JArray l) ->
  let a := new_TodoApp (Some (Json v)) clk in
  tasks a = []
  /\ localStorage a = None
  /\ alerts a = [DATA_CORRUPT NotAnArrayError]
  /\ forall b, localStorage b = Some (Json v) ->
       tasks (snd (loadTasks b)) = tasks b
       /\ localStorage (snd (loadTasks b)) = None.
Proof.
  intros Hv a.
  destruct (new_TodoApp_not_array v clk Hv) as (H1 & H2 & H3).
  split; [done|]. split; [done|]. split; [done|].
  intros b Hb.
  destruct (loadTasks_not_array v b Hv Hb) as (Hh & Hl & Hs & _).
  split; [|done]. unfold tasks. by rewrite Hh, Hl.
Qed.

Lemma load_non_array_witness :
  let a := new_TodoApp (Some (Json (JObject [("id", JNumber 1)])))
             clock_example in
  tasks a = [] /\ localStorage a = None.
Proof.
  destruct (load_non_array (JObject [("id", JNumber 1)]) clock_example)
    as (H1 & H2 & _); [discriminate|].
  split; [exact H1|exact H2].
Defined.


(** A record that lacks a string [text] or a boolean [completed], or whose
    text trims to nothing, is not valid. *)
Lemma isValidTaskData_lacking taskData :
  typeof (get taskData "text") <> Tstring
  \/ typeof (get taskData "completed") <> Tboolean
  \/ trim (text_of taskData) = "" ->
  isValidTaskData taskData = false.
Proof.
  intros H. apply not_true_is_false. intros Hv.
  apply isValidTaskData_iff in Hv as (props & s & b & -> & Ht & Hs & Hc).
  unfold text_of in H. simpl in H. rewrite Ht, Hc in H. simpl in H.
  naive_solver.
Qed.

(** The page opened on a slot that holds the array [l], when no conversion
    of an id throws. *)
Lemma new_TodoApp_array l clk :
  (forall d, d ∈ l -> isValidTaskData d = true -> id_converts d = true) ->
  let a := new_TodoApp (Some (Json (JArray l))) clk in
  let invalid := List.filter (fun d => negb (isValidTaskData d)) l in
  exists inc comp,
    tasks a = inc ++ rev comp
    /\ Forall2 (loaded_from clk) (List.filter valid_incomplete l) inc
    /\ Forall2 (loaded_from clk) (List.filter valid_completed l) comp
    /\ alerts a = []
    /\ console a
       = (if (0 <? length invalid)%nat
          then [warn_summary (length (List.filter isValidTaskData l))
                  (length invalid)]
          else [])
         ++ map warn_skipped invalid
    /\ (existsb isValidTaskData l = true ->
        localStorage a = Some (saved (tasks a)))
    /\ (existsb isValidTaskData l = false ->
        localStorage a = Some (Json (JArray l))).
Proof.
  intros Hids a invalid. subst a. unfold new_TodoApp, init.
  set (p := createEmptyState (page (Some (Json (JArray l))) clk)).
  destruct (loadTasks_array l p) as
    (inc & comp & Hts & Hinc & Hcomp & Hal & Hco & Hs & Hs');
    [by constructor|done|done|].
  exists inc, comp. simpl in *. fold invalid in Hco.
  change (tasks (updateEmptyState (snd (loadTasks p))))
    with (tasks (snd (loadTasks p))).
  rewrite app_nil_r in Hco. by repeat split.
Qed.

(** *** The per-element rule of the specification against the code *)
















Example load_skips_invalid_records_example :
  let a := new_TodoApp
             (Some (Json (JArray [record_without_id "a" false;
                                  record_without_text;
                                  record_without_id "b" true])))
             clock_example in
  tasks a = [mkTaskItem "1700000000001" "a" false;
             mkTaskItem "1700000000000" "b" true]
  /\ console a = [warn_summary 2 1; warn_skipped record_without_text].
Proof. split; reflexivity. Qed.




(** ** Clearing the completed tasks *)

Lemma length_filter_completed (l : list TaskItem) :
  length (filter (fun t => completed t = false) l)
  + length (filter (fun t => completed t = true) l)
  = length l.
Proof.
  induction l as [|t l IH]; [done|].
  destruct (completed t) eqn:Hc.
  - rewrite filter_cons_False, filter_cons_True by congruence. simpl. lia.
  - rewrite filter_cons_True, filter_cons_False by congruence. simpl. lia.
Qed.

Lemma filter_incomplete_id (l : list TaskItem) :
  Forall (fun t => completed t = false) l ->
  filter (fun t => completed t = false) l = l.
Proof.
  induction 1 as [|t l Ht _ IH]; [done|].
  rewrite filter_cons_True by done. by rewrite IH.
Qed.

(** Claim C3, as stated, fails: [clearCompletedTasks] returns no count.
    With no completed task it returns [undefined], not 0; when it removes
    one task it returns [undefined], not 1. *)
Lemma clearCompleted_count_counterexample :
  let a := new_TodoApp None clock_example in
  tasks a = []
  /\ fst (clearCompletedTasks a) = Return undefined
  /\ fst (clearCompletedTasks a) <> Return (Some (JNumber 0))
  /\ length (tasks two_tasks) - length (tasks (snd (clearCompletedTasks two_tasks))) = 1
  /\ fst (clearCompletedTasks two_tasks) = Return undefined
  /\ fst (clearCompletedTasks two_tasks) <> Return (Some (JNumber 1)).
Proof. repeat split; try reflexivity; discriminate. Qed.

(** Claim C3, amended.  [clearCompletedTasks] removes exactly the tasks with
    [completed == true]: what stays is the incomplete tasks, in their order,
    and the list shrinks by the number of completed tasks.  It returns
    nothing.  When no task is completed the list is unchanged. *)
Theorem clearCompleted_removes_completed a :
  let a' := snd (clearCompletedTasks a) in
  fst (clearCompletedTasks a) = Return undefined
  /\ tasks a' = filter (fun t => completed t = false) (tasks a)
  /\ (forall t, t ∈ tasks a' <-> t ∈ tasks a /\ completed t = false)
  /\ length (tasks a) - length (tasks a')
     = length (filter (fun t => completed t = true) (tasks a))
  /\ (Forall (fun t => completed t = false) (tasks a) ->
      tasks a' = tasks a).
Proof.
  destruct (clearCompletedTasks_spec a) as (Hr & _ & Hts & _).
  intros a'. subst a'. rewrite Hts.
  split; [done|]. split; [done|]. split; [|split].
  - intros t. rewrite list_elem_of_filter. tauto.
  - pose proof (length_filter_completed (tasks a)). lia.
  - apply filter_incomplete_id.
Qed.

Lemma clearCompleted_removes_completed_witness :
  tasks (snd (clearCompletedTasks (snd (clearCompletedTasks two_tasks))))
  = tasks (snd (clearCompletedTasks two_tasks)).
Proof.
  apply (clearCompleted_removes_completed (snd (clearCompletedTasks two_tasks))).
  vm_compute. repeat constructor.
Defined.

(** ** Elements that are not in the list *)

(** Claim C4, as stated, fails.  Node 0 of [one_deleted] is an element that
    is no longer in the list.  [deleteTask] and [toggleComplete] on it throw
    nothing and report nothing, and [toggleComplete] puts it back into the
    list. *)
Lemma absent_element_counterexample :
  closest_task_item 0 one_deleted = None
  /\ tasks one_deleted = [mkTaskItem "1700000000001" "Walk dog" false]
  /\ fst (deleteTask 0 one_deleted) = Return undefined
  /\ alerts (snd (deleteTask 0 one_deleted)) = []
  /\ fst (toggleComplete 0 one_deleted) = Return undefined
  /\ alerts (snd (toggleComplete 0 one_deleted)) = []
  /\ tasks (snd (toggleComplete 0 one_deleted))
     = [mkTaskItem "1700000000000" "Buy milk" false;
        mkTaskItem "1700000000001" "Walk dog" false].
Proof. repeat split; vm_compute; reflexivity. Qed.

(** Claim C4, amended.  There is no error for an absent task: the methods
    take the element itself, and the click listener only passes elements of
    the list.  For an element that is not in the list, [deleteTask] and
    [toggleComplete] return normally and report nothing; [deleteTask]
    leaves the list unchanged; [toggleComplete] flips the flag of the
    element and inserts it, at the head when it becomes incomplete and at
    the tail when it becomes completed.  A click that is not inside an item
    of the list changes nothing. *)
Theorem absent_element_no_error a n t :
  heap a !! n = Some t -> n ∉ taskList a ->
  (fst (deleteTask n a) = Return undefined
   /\ alerts (snd (deleteTask n a)) = alerts a
   /\ taskList (snd (deleteTask n a)) = taskList a
   /\ tasks (snd (deleteTask n a)) = tasks a)
  /\ (fst (toggleComplete n a) = Return undefined
      /\ alerts (snd (toggleComplete n a)) = alerts a
      /\ tasks (snd (toggleComplete n a))
         = if completed t
           then mkTaskItem (dataset_id t) (textContent t) false :: tasks a
           else tasks a ++ [mkTaskItem (dataset_id t) (textContent t) true])
  /\ (forall tg, taskList_onclick (closest_task_item n a) tg a
                 = (Return undefined, a)).
Proof.
  intros Hn Hnotin. split; [|split].
  - destruct (deleteTask_spec n a t Hn) as (Hr & Hh & Hl & _ & Hal).
    rewrite not_elem_of_detach in Hl by done.
    repeat split; try done. unfold tasks. by rewrite Hh, Hl.
  - destruct (toggleComplete_spec n a t Hn) as (Hr & _ & _ & Hts & _ & Hal).
    rewrite not_elem_of_detach in Hts by done.
    split; [exact Hr|]. split; [exact Hal|].
    rewrite Hts. by destruct (completed t).
  - intros tg. unfold taskList_onclick, closest_task_item.
    by rewrite decide_False.
Qed.

Lemma absent_element_no_error_witness :
  tasks (snd (deleteTask 0 one_deleted)) = tasks one_deleted.
Proof.
  apply (absent_element_no_error one_deleted 0
           (mkTaskItem "1700000000000" "Buy milk" true)).
  - reflexivity.
  - vm_compute. intros H. inversion H as [|? ? ? H']. inversion H'.
Defined.

(** ** Adding a task *)

Lemma trimStart_length_eq s :
  String.length (trimStart s) = String.length s -> trimStart s = s.
Proof.
  destruct s as [|c s]; simpl; [done|].
  destruct (is_whitespace c); [|done].
  pose proof (length_trimStart s). lia.
Qed.

Lemma trimEnd_length_eq s :
  String.length (trimEnd s) = String.length s -> trimEnd s = s.
Proof.
  induction s as [|c s IH]; simpl; [done|].
  destruct (trimEnd s) as [|c' r] eqn:Hr.
  - destruct (is_whitespace c); simpl; [done|].
    intros H. destruct s; [done|simpl in H; lia].
  - simpl in *. intros H. f_equal. apply IH. lia.
Qed.

(** A text that trimming does not shorten is left as it is. *)
Lemma trim_length_eq s :
  String.length (trim s) = String.length s -> trim s = s.
Proof.
  unfold trim. intros H.
  pose proof (length_trimEnd (trimStart s)).
  pose proof (length_trimStart s).
  assert (Hs : trimStart s = s) by (apply trimStart_length_eq; lia).
  rewrite Hs in H |- *. by apply trimEnd_length_eq.
Qed.

(** [addTask] reports nothing. *)
Lemma addTask_alerts text c id a :
  alerts (snd (addTask text c id a)) = alerts a.
Proof.
  unfold addTask. pose proof (id_or_now_frame id a) as Hfr.
  destruct (id_or_now id a) as [v a1]. simpl in Hfr.
  destruct Hfr as (_ & _ & _ & _ & Hal & _).
  destruct (ToString v); simpl; [|done].
  unfold insertTaskIntoList. by destruct c.
Qed.

(** The checks of [handleAdd] that make up validation: the input is
    rejected with one of the three validation messages exactly when it is
    empty, trims to nothing, or is longer than the limit as typed. *)
Lemma handleAdd_validation a :
  let v := taskInput_value a in
  (v = "" \/ trim v = "" \/ MAX_TASK_LENGTH < String.length v)
  <-> exists m, alerts (snd (handleAdd a)) = m :: alerts a
                /\ kind_of m = ValidationError.
Proof.
  intros v. unfold handleAdd. fold v.
  destruct (String.eqb_spec v "") as [Hv|Hv].
  { split; [by exists EMPTY_TASK|by left]. }
  destruct (String.eqb_spec (trim v) "") as [Ht|Ht].
  { split; [by exists WHITESPACE_ONLY|by right; left]. }
  destruct (Nat.ltb_spec MAX_TASK_LENGTH (String.length v)) as [Hl|Hl].
  { split; [by exists TASK_TOO_LONG|by right; right]. }
  split; [intros [?|[?|?]]; try done; lia|].
  intros (m & Hm & Hk). exfalso.
  destruct (existsb _ (tasks a)).
  - simpl in Hm. by injection Hm as <-.
  - pose proof (addTask_alerts (trim v) false None a) as Hal.
    destruct (addTask (trim v) false None a) as [[r|e] a1];
      simpl in *; rewrite Hal in Hm;
      apply (f_equal length) in Hm; simpl in Hm; lia.
Qed.

(** An input that [handleAdd] reports leaves the list as it was. *)
Lemma handleAdd_failure_unchanged a :
  alerts (snd (handleAdd a)) <> alerts a ->
  heap (snd (handleAdd a)) = heap a
  /\ taskList (snd (handleAdd a)) = taskList a
  /\ tasks (snd (handleAdd a)) = tasks a.
Proof.
  unfold handleAdd.
  pose proof (addTask_alerts (trim (taskInput_value a)) false None a) as Hal.
  repeat (match goal with |- context [if ?b then _ else _] =>
                            destruct b end); done.
Qed.

Lemma trimStart_head s :
  match trimStart s with
  | EmptyString => True
  | String c _ => is_whitespace c = false
  end.
Proof.
  induction s as [|c s IH]; simpl; [done|].
  by destruct (is_whitespace c) eqn:Hc.
Qed.

Lemma trimEnd_idem s : trimEnd (trimEnd s) = trimEnd s.
Proof.
  induction s as [|c s IH]; simpl; [done|].
  destruct (trimEnd s) as [|c' r] eqn:Hr.
  - destruct (is_whitespace c) eqn:Hc; simpl; [done|]. by rewrite Hc.
  - simpl in *. by rewrite IH.
Qed.

(** Trimming twice is trimming once. *)
Lemma trim_idem s : trim (trim s) = trim s.
Proof.
  unfold trim. pose proof (trimStart_head s) as Hhead.
  destruct (trimStart s) as [|c r]; [done|].
  assert (Hs : trimStart (trimEnd (String c r)) = trimEnd (String c r)).
  { simpl. destruct (trimEnd r); simpl; rewrite Hhead; simpl;
      by rewrite ?Hhead. }
  by rewrite Hs, trimEnd_idem.
Qed.

Lemma elem_of_tasks_of (h : list TaskItem) (l : list node) n t :
  n ∈ l -> h !! n = Some t -> t ∈ tasks_of h l.
Proof.
  intros Hn Ht. apply list_elem_of_omap. by exists n.
Qed.

(** What [handleAdd] does to the list: nothing, or a new task at its head
    whose text is the trimmed input, which passed the checks. *)
Lemma handleAdd_tasks a :
  wf a ->
  let v := taskInput_value a in
  tasks (snd (handleAdd a)) = tasks a
  \/ (exists sid, tasks (snd (handleAdd a))
                  = mkTaskItem sid (trim v) false :: tasks a)
     /\ trim v <> "" /\ String.length v <= MAX_TASK_LENGTH.
Proof.
  intros Hwf v. unfold handleAdd. fold v.
  destruct (String.eqb_spec v "") as [Hv|Hv]; [by left|].
  destruct (String.eqb_spec (trim v) "") as [Ht|Ht]; [by left|].
  destruct (Nat.ltb_spec MAX_TASK_LENGTH (String.length v)) as [Hl|Hl];
    [by left|].
  destruct (existsb _ (tasks a)); [by left|]. right.
  destruct (addTask_spec (trim v) false None a
              (number_to_string (clock a (ticks a))) Hwf eq_refl)
    as (Hr & _ & _ & Hts & _).
  destruct (addTask (trim v) false None a) as [c a1]. simpl in *. subst c.
  split; [by eexists|done].
Qed.

Lemma text_ok_sublist (k l : list TaskItem) :
  sublist k l -> Forall text_ok l -> Forall text_ok k.
Proof. apply Forall_sublist_of. Qed.

(** Every task made through the user interface has a text as the data model
    wants it. *)
Lemma dispatch_text_ok e a :
  wf a -> Forall text_ok (tasks a) -> Forall text_ok (tasks (dispatch e a)).
Proof.
  intros Hwf Hok. destruct e as [s| |n tg|]; cbn [dispatch].
  - done.
  - destruct (handleAdd_tasks a Hwf) as [->|([sid ->] & Ht & Hl)]; [done|].
    constructor; [|done]. repeat split; simpl; [apply trim_idem|done|].
    etrans; [apply length_trim|done].
  - unfold taskList_onclick, closest_task_item.
    destruct (decide (n ∈ taskList a)) as [Hn|]; [|done].
    destruct tg; [| |done].
    + unfold deleteTask. destruct (heap a !! n); [|done]. simpl.
      eapply text_ok_sublist; [|exact Hok]. apply tasks_of_filter_sublist.
    + destruct (heap a !! n) as [t|] eqn:Ht.
      * destruct (toggleComplete_spec n a t Ht) as (_ & _ & _ & Hts & _).
        rewrite Hts.
        assert (Forall text_ok (tasks_of (heap a) (detach n (taskList a)))).
        { eapply text_ok_sublist; [|exact Hok].
          apply tasks_of_filter_sublist. }
        assert (text_ok t).
        { rewrite Forall_forall in Hok. apply Hok.
          by apply (elem_of_tasks_of _ _ n). }
        destruct (completed t).
        -- by constructor.
        -- apply Forall_app. split; [done|]. by constructor.
      * unfold toggleComplete. by rewrite Ht.
  - destruct (clearCompletedTasks_spec a) as (_ & _ & Hts & _).
    rewrite Hts. eapply text_ok_sublist; [|exact Hok]. apply sublist_filter.
Qed.

Lemma ui_text_ok clk es :
  Forall text_ok (tasks (run es (new_TodoApp None clk))).
Proof.
  assert (H : forall a, wf a -> regions (tasks a) ->
                        Forall text_ok (tasks a) ->
                        Forall text_ok (tasks (run es a))).
  { induction es as [|e es IH]; intros a Hwf Hreg Hok; [done|].
    simpl. destruct (dispatch_inv e a (conj Hwf Hreg)) as [Hwf' Hreg'].
    apply IH; [done|done|]. by apply dispatch_text_ok. }
  destruct (new_TodoApp_inv None clk) as [Hwf Hreg].
  apply H; [done|done|]. constructor.
Qed.




Example add_text_of_completed_task :
  let a := set_taskInput_value "buy milk" two_tasks in
  alerts (snd (handleAdd a)) = []
  /\ tasks (snd (handleAdd a))
     = [mkTaskItem "1700000000002" "buy milk" false;
        mkTaskItem "1700000000001" "Walk dog" false;
        mkTaskItem "1700000000000" "Buy milk" true].
Proof. split; reflexivity. Qed.

(** Claim C2: the code departs from it.  [handleAdd] measures the input
    before trimming it: a text of 200 letters followed by one space trims to
    200 characters, within the limit, yet it is rejected as too long and
    nothing is added. *)
Theorem padded_text_rejected :
  let a := set_taskInput_value padded_text (new_TodoApp None clock_example) in
  String.length padded_text = 201
  /\ trim padded_text = letters 200
  /\ String.length (trim padded_text) <= MAX_TASK_LENGTH
  /\ alerts (snd (handleAdd a)) = [TASK_TOO_LONG]
  /\ kind_of TASK_TOO_LONG = ValidationError
  /\ tasks (snd (handleAdd a)) = [].
Proof.
  repeat split; vm_compute; reflexivity.
Qed.

(** ** Identifiers *)

(** Claim C10: the code departs from it.  A new id is the reading of the
    clock, in milliseconds.  Two tasks added without the clock advancing in
    between get the same id; so do two stored records without an id, which
    [loadTasks] adds in one loop; and stored ids are taken as they are,
    equal or not. *)
Theorem same_millisecond_same_id :
  let a := run [type_text "a"; click_add; type_text "b"; click_add]
             (new_TodoApp None clock_stalled) in
  let b := new_TodoApp
             (Some (Json (JArray [record_without_id "a" false;
                                  record_without_id "b" false])))
             clock_stalled in
  tasks a = [mkTaskItem "1700000000000" "b" false;
             mkTaskItem "1700000000000" "a" false]
  /\ ~ NoDup (map dataset_id (tasks a))
  /\ tasks b = [mkTaskItem "1700000000000" "a" false;
                mkTaskItem "1700000000000" "b" false]
  /\ ~ NoDup (map dataset_id (tasks b)).
Proof.
  split; [reflexivity|]. split; [|split; [reflexivity|]].
  - vm_compute. intros H. apply NoDup_cons in H as [H _].
    apply H. left.
  - vm_compute. intros H. apply NoDup_cons in H as [H _].
    apply H. left.
Qed.

(** ** Saving and loading again *)

Lemma task_to_json_valid t :
  trim (textContent t) <> "" -> isValidTaskData (task_to_json t) = true.
Proof.
  intros H. apply isValidTaskData_iff.
  by exists [("id", JString (dataset_id t));
             ("text", JString (textContent t));
             ("completed", JBool (completed t))],
            (textContent t), (completed t).
Qed.

Lemma loaded_from_saved clk (l k : list TaskItem) :
  Forall (fun t => dataset_id t <> "") l ->
  Forall2 (loaded_from clk) (map task_to_json l) k -> k = l.
Proof.
  intros Hids. revert k. induction Hids as [|t l Hid _ IH]; intros k Hk.
  - by inversion Hk.
  - inversion Hk as [|? t' ? k' (Htxt & Hc & Hfrom) Hk']; subst.
    f_equal; [|by apply IH].
    unfold text_of, completed_of in *. simpl in *.
    rewrite (eqb_empty_false _ Hid) in Hfrom. simpl in Hfrom.
    destruct t, t'. simpl in *. congruence.
Qed.

Lemma filter_saved (f : bool -> bool) (l : list TaskItem) :
  Forall (fun t => trim (textContent t) <> "") l ->
  List.filter (fun d => isValidTaskData d && f (completed_of d))
    (map task_to_json l)
  = map task_to_json (List.filter (fun t => f (completed t)) l).
Proof.
  induction 1 as [|t l Ht _ IH]; [done|].
  simpl. rewrite task_to_json_valid by done.
  change (completed_of (task_to_json t)) with (completed t). simpl.
  destruct (f (completed t)); simpl; by rewrite IH.
Qed.

(** What saving and loading again does to a list: the incomplete tasks come
    back in their order, the completed tasks in the reverse of theirs. *)
Lemma save_load_order (l : list TaskItem) clk :
  Forall (fun t => dataset_id t <> "") l ->
  Forall (fun t => trim (textContent t) <> "") l ->
  tasks (new_TodoApp (Some (saved l)) clk)
  = List.filter (fun t => negb (completed t)) l
    ++ rev (List.filter (fun t => completed t) l).
Proof.
  intros Hids Htxt.
  assert (Hsub : forall (f : TaskItem -> bool),
            Forall (fun t => dataset_id t <> "") (List.filter f l)).
  { intros f. rewrite Forall_forall in *. intros t Ht. apply Hids.
    apply list_elem_of_In, filter_In in Ht as [Ht _].
    by apply list_elem_of_In. }
  destruct (new_TodoApp_array (map task_to_json l) clk) as
    (inc & comp & Hts & Hinc & Hcomp & _).
  { intros d Hd _. apply list_elem_of_fmap in Hd as (t & -> & Ht).
    rewrite Forall_forall in Hids. specialize (Hids t Ht).
    unfold id_converts. simpl. by rewrite (eqb_empty_false _ Hids). }
  unfold valid_incomplete in Hinc. unfold valid_completed in Hcomp.
  rewrite (filter_saved negb) in Hinc by done.
  rewrite (filter_saved (fun b => b)) in Hcomp by done.
  apply loaded_from_saved in Hinc, Hcomp; [|apply Hsub|apply Hsub].
  unfold saved. rewrite Hts. by subst.
Qed.

(** Claim C1: the code departs from it.  [two_completed] is a reachable
    state with two completed tasks; it is saved as it stands; a new page
    opened on the saved value shows the two tasks in the opposite order. *)
Theorem save_load_reverses_completed :
  reachable two_completed
  /\ tasks two_completed
     = [mkTaskItem "1700000000000" "Buy milk" true;
        mkTaskItem "1700000000001" "Walk dog" true]
  /\ localStorage two_completed = Some (saved (tasks two_completed))
  /\ tasks (new_TodoApp (localStorage two_completed) clock_example)
     = [mkTaskItem "1700000000001" "Walk dog" true;
        mkTaskItem "1700000000000" "Buy milk" true]
  /\ tasks (new_TodoApp (localStorage two_completed) clock_example)
     <> tasks two_completed.
Proof.
  split.
  { exists None, clock_example,
      [type_text "Buy milk"; click_add; type_text "Walk dog"; click_add;
       click_item 0 complete_btn; click_item 1 complete_btn].
    unfold two_completed, two_tasks, run. cbn [foldl]. reflexivity. }
  split; [vm_compute; reflexivity|].
  split; [vm_compute; reflexivity|].
  split; [vm_compute; reflexivity|].
  vm_compute. intros H. discriminate H.
Qed.

(** ** Sample runs *)

(** The run given with the specification: two adds, the older task
    completed, then the completed tasks cleared. *)
Example buy_milk_walk_dog :
  let a1 := run [type_text "Buy milk"; click_add;
                 type_text "Walk dog"; click_add]
              (new_TodoApp None clock_example) in
  let a2 := run [click_item 0 complete_btn] a1 in
  let a3 := run [click_clear] a2 in
  map textContent (tasks a1) = ["Walk dog"; "Buy milk"]
  /\ map completed (tasks a1) = [false; false]
  /\ map textContent (tasks a2) = ["Walk dog"; "Buy milk"]
  /\ map completed (tasks a2) = [false; true]
  /\ map textContent (tasks a3) = ["Walk dog"]
  /\ localStorage a3 = Some (saved (tasks a3)).
Proof. cbv zeta. repeat apply conj; vm_compute; reflexivity. Qed.

(** Why the ids of the stored records are asked to convert: an id that is
    an object owning a [toString] property makes the [dataset.id] setter
    throw inside the loop.  The records visited before it stay in the list,
    the corruption is reported and the slot is removed. *)
Example load_stops_at_unconvertible_id :
  let a := new_TodoApp
             (Some (Json (JArray
                [JObject [("id", JObject [("toString", JNumber 1)]);
                          ("text", JString "a"); ("completed", JBool false)];
                 JObject [("id", JString "8");
                          ("text", JString "b"); ("completed", JBool false)]])))
             clock_example in
  tasks a = [mkTaskItem "8" "b" false]
  /\ alerts a = [DATA_CORRUPT TypeError]
  /\ localStorage a = None.
Proof. cbv zeta. repeat apply conj; vm_compute; reflexivity. Qed.

(** ** What the page shows *)

Lemma existsb_completed_filter (l : list TaskItem) :
  existsb completed (filter (fun t => completed t = false) l) = false.
Proof.
  induction l as [|t l IH]; [done|].
  destruct (completed t) eqn:Hc.
  - by rewrite filter_cons_False by congruence.
  - rewrite filter_cons_True by done. simpl. by rewrite Hc.
Qed.

Lemma new_TodoApp_view slot clk : view_ok (new_TodoApp slot clk).
Proof. split; reflexivity. Qed.

Lemma id_or_now_display id a :
  emptyState_display (snd (id_or_now id a)) = emptyState_display a.
Proof. by destruct id as [w|]; [simpl; destruct (truthy w)|]. Qed.

Lemma addTask_view text c id a :
  view_ok a -> view_ok (snd (addTask text c id a)).
Proof.
  intros [Hshow Hdisp]. unfold addTask.
  pose proof (id_or_now_frame id a) as Hfr.
  pose proof (id_or_now_display id a) as Hd.
  destruct (id_or_now id a) as [v a1]. simpl in Hfr, Hd.
  destruct Hfr as (_ & Hh & Hl & _ & _ & _ & _ & Hs).
  destruct (ToString v); [split; reflexivity|].
  split; simpl.
  - unfold tasks. by rewrite Hs, Hh, Hl.
  - by rewrite Hl, Hd.
Qed.

Lemma handleAdd_view a : view_ok a -> view_ok (snd (handleAdd a)).
Proof.
  intros Hv. pose proof (addTask_view (trim (taskInput_value a)) false None a Hv)
    as Ha.
  unfold handleAdd.
  destruct (String.eqb _ ""); [exact Hv|].
  destruct (String.eqb _ ""); [exact Hv|].
  destruct (_ <? _)%nat; [exact Hv|].
  destruct (existsb _ _); [exact Hv|].
  by destruct (addTask _ _ _ a) as [[?|?] ?].
Qed.

Lemma elem_of_length_pos (n : node) (l : list node) :
  n ∈ l -> (0 <? length l)%nat = true.
Proof. destruct l; [by intros ?%elem_of_nil|done]. Qed.

Lemma dispatch_view e a : view_ok a -> view_ok (dispatch e a).
Proof.
  intros Hv. destruct e as [s| |n tg|]; cbn [dispatch].
  - exact Hv.
  - by apply handleAdd_view.
  - unfold taskList_onclick, closest_task_item.
    destruct (decide (n ∈ taskList a)) as [Hn|]; [|exact Hv].
    destruct tg; [| |exact Hv].
    + unfold deleteTask. destruct (heap a !! n); [|exact Hv].
      split; reflexivity.
    + destruct (heap a !! n) as [t|] eqn:Ht.
      * destruct (toggleComplete_spec n a t Ht) as (_ & _ & Hl & _).
        destruct Hv as [_ Hdisp]. split.
        -- unfold toggleComplete. by rewrite Ht.
        -- rewrite Hl.
           replace (emptyState_display (snd (toggleComplete n a)))
             with (emptyState_display a)
             by (unfold toggleComplete; rewrite Ht; by destruct (completed t)).
           rewrite Hdisp, (elem_of_length_pos n) by done.
           destruct (completed t); [done|].
           by rewrite length_app, Nat.add_1_r.
      * unfold toggleComplete. by rewrite Ht.
  - destruct (clearCompletedTasks_spec a) as (_ & _ & Hts & _).
    split; [|reflexivity].
    rewrite Hts, existsb_completed_filter. reflexivity.
Qed.

Lemma run_view es a : view_ok a -> view_ok (run es a).
Proof.
  revert a. induction es as [|e es IH]; intros a Hv; [done|].
  simpl. by apply IH, dispatch_view.
Qed.

(** Property X1.  In every state the application reaches, the clear button
    is shown exactly when the list holds a completed task. *)
Theorem clear_button_follows_list slot clk es :
  let a := run es (new_TodoApp slot clk) in
  clearCompletedBtn_show a = true
  <-> exists t, t ∈ tasks a /\ completed t = true.
Proof.
  intros a. destruct (run_view es _ (new_TodoApp_view slot clk)) as [Hs _].
  fold a in Hs. rewrite Hs, existsb_exists.
  split; intros (t & Ht & Hc); exists t; by rewrite list_elem_of_In in *.
Qed.

(** Property X2.  In every state the application reaches, the empty-state
    banner is displayed when the list has no task and hidden when it has
    one, although [toggleComplete] never refreshes it. *)
Theorem empty_banner_follows_list slot clk es :
  let a := run es (new_TodoApp slot clk) in
  (tasks a = [] -> emptyState_display a = display_block)
  /\ (tasks a <> [] -> emptyState_display a = display_none).
Proof.
  intros a. destruct (run_view es _ (new_TodoApp_view slot clk)) as [_ Hd].
  destruct (run_inv es _ (new_TodoApp_inv slot clk)) as [Hwf _].
  fold a in Hd, Hwf. rewrite Hd. unfold tasks, wf in *.
  destruct (taskList a) as [|n l]; [split; [done|by intros []]|].
  split; [|done]. apply Forall_cons in Hwf as [Hn _].
  apply lookup_lt_is_Some in Hn as [t Ht].
  by rewrite (tasks_of_cons _ _ _ t).
Qed.

(** ** What [handleAdd] does with an input *)

(** The state after [handleAdd] rejected the input with the message [m]:
    the message is shown; a blank input is also wiped. *)
Lemma handleAdd_outcome a :
  wf a ->
  let v := taskInput_value a in
  let t := mkTaskItem (number_to_string (clock a (ticks a))) (trim v) false in
  (acceptable v (tasks a)
   /\ fst (handleAdd a) = Return undefined
   /\ heap (snd (handleAdd a)) = heap a ++ [t]
   /\ taskList (snd (handleAdd a)) = length (heap a) :: taskList a
   /\ tasks (snd (handleAdd a)) = t :: tasks a
   /\ localStorage (snd (handleAdd a)) = Some (saved (t :: tasks a))
   /\ alerts (snd (handleAdd a)) = alerts a
   /\ taskInput_value (snd (handleAdd a)) = "")
  \/ (~ acceptable v (tasks a)
      /\ exists m,
           handleAdd a
           = (Return undefined,
              match m with
              | WHITESPACE_ONLY => set_taskInput_value "" (alert m a)
              | _ => alert m a
              end)
           /\ ((m = EMPTY_TASK /\ v = "")
               \/ (m = WHITESPACE_ONLY /\ v <> "" /\ trim v = "")
               \/ (m = TASK_TOO_LONG /\ trim v <> ""
                   /\ MAX_TASK_LENGTH < String.length v)
               \/ (m = TASK_EXISTS /\ trim v <> ""
                   /\ String.length v <= MAX_TASK_LENGTH
                   /\ exists u, u ∈ tasks a /\ completed u = false
                                /\ toLowerCase (textContent u)
                                   = toLowerCase (trim v)))).
Proof.
  intros Hwf v t.
  destruct (String.eqb_spec v "") as [Hv|Hv].
  { right. split; [by intros (? & _)|]. exists EMPTY_TASK.
    split; [|by left]. unfold handleAdd. fold v. by rewrite Hv. }
  destruct (String.eqb_spec (trim v) "") as [Ht|Ht].
  { right. split; [by intros (_ & ? & _)|]. exists WHITESPACE_ONLY.
    split; [|by right; left]. unfold handleAdd. fold v.
    by rewrite (eqb_empty_false v), Ht. }
  destruct (Nat.ltb_spec MAX_TASK_LENGTH (String.length v)) as [Hl|Hl].
  { right. split; [intros (_ & _ & ? & _); lia|]. exists TASK_TOO_LONG.
    split; [|by right; right; left]. unfold handleAdd. fold v.
    rewrite (eqb_empty_false v), (eqb_empty_false (trim v)) by done.
    by replace (MAX_TASK_LENGTH <? String.length v)%nat with true
      by (symmetry; by apply Nat.ltb_lt). }
  destruct (existsb
              (fun u => String.eqb (toLowerCase (textContent u))
                          (toLowerCase (trim v)) && negb (completed u))
              (tasks a)) eqn:Hex.
  { pose proof Hex as Hfound.
    apply existsb_exists in Hex as (u & Hu & Hu').
    apply andb_true_iff in Hu' as [Heq%String.eqb_eq Hc%negb_true_iff].
    apply list_elem_of_In in Hu.
    right. split; [intros (_ & _ & _ & Hd); by apply (Hd u)|].
    exists TASK_EXISTS. split; [|right; right; right; by eauto 8].
    unfold handleAdd. fold v.
    rewrite (eqb_empty_false v), (eqb_empty_false (trim v)) by done.
    replace (MAX_TASK_LENGTH <? String.length v)%nat with false
      by (symmetry; by apply Nat.ltb_ge).
    by rewrite Hfound. }
  left.
  assert (Hdup : forall u, u ∈ tasks a -> completed u = false ->
                   toLowerCase (textContent u) <> toLowerCase (trim v)).
  { intros u Hu Hc Heq.
    assert (existsb
              (fun u => String.eqb (toLowerCase (textContent u))
                          (toLowerCase (trim v)) && negb (completed u))
              (tasks a) = true); [|congruence].
    apply existsb_exists. exists u. split; [by apply list_elem_of_In|].
    rewrite Hc. simpl. rewrite andb_true_r. by apply String.eqb_eq. }
  destruct (handleAdd_success a Hwf Hv Ht Hl Hdup) as
    (Hr & Hh & Hlist & Hts & Hs & Hal & Hin).
  fold v in Hts, Hh. fold t in Hts, Hh.
  rewrite Hts in Hs. by repeat split.
Qed.

(** Property X3.  [handleAdd] adds the input exactly when it is acceptable:
    not empty, not blank, at most 200 characters as typed, and not the text
    of an incomplete task (letter case aside).  It then puts the trimmed text
    at the head of the list as an incomplete task whose id is the reading of
    the clock, saves the list, clears the input field and reports nothing.
    Otherwise it reports exactly one message and leaves the elements, the
    list and the slot as they were. *)
Theorem handleAdd_adds_iff_acceptable a :
  wf a ->
  let v := taskInput_value a in
  let a' := snd (handleAdd a) in
  (acceptable v (tasks a) ->
   tasks a'
   = mkTaskItem (number_to_string (clock a (ticks a))) (trim v) false
     :: tasks a
   /\ localStorage a' = Some (saved (tasks a'))
   /\ alerts a' = alerts a
   /\ taskInput_value a' = "")
  /\ (~ acceptable v (tasks a) ->
      heap a' = heap a /\ taskList a' = taskList a
      /\ localStorage a' = localStorage a
      /\ exists m, alerts a' = m :: alerts a
                   /\ (kind_of m = ValidationError
                       \/ kind_of m = DuplicateError)).
Proof.
  intros Hwf v a'. subst a'.
  destruct (handleAdd_outcome a Hwf) as
    [(Hacc & _ & _ & _ & Hts & Hs & Hal & Hin)
    |(Hrej & m & Hrun & Hm)]; fold v in Hacc || fold v in Hrej.
  - split; [|done]. intros _. by rewrite Hts.
  - split; [done|]. intros _. rewrite Hrun.
    destruct Hm as [[-> _]|[[-> _]|[[-> _]|[-> _]]]]; simpl;
      repeat split; eexists; (split; [reflexivity|]); by eauto.
Qed.

Lemma handleAdd_adds_iff_acceptable_witness :
  let a := set_taskInput_value "  Call mum " two_tasks in
  tasks (snd (handleAdd a))
  = mkTaskItem (number_to_string (clock a (ticks a)))
      (trim (taskInput_value a)) false
    :: tasks a.
Proof.
  intros a.
  assert (Hwf : wf a) by (unfold wf; vm_compute; repeat constructor).
  destruct (handleAdd_adds_iff_acceptable a Hwf) as [Hadd _].
  apply Hadd. unfold acceptable.
  split; [vm_compute; discriminate|].
  split; [vm_compute; discriminate|].
  split; [vm_compute; lia|].
  intros u Hu Hc. vm_compute in Hu.
  apply elem_of_cons in Hu as [->|Hu]; [vm_compute; discriminate|].
  apply elem_of_cons in Hu as [->|Hu]; [vm_compute; discriminate|].
  by apply elem_of_nil in Hu.
Defined.

(** ** Writing the list back *)

(** Property X4.  Every event that changes the list writes the new list to
    the slot: after it, the slot holds exactly the records of the list, in
    order. *)
Theorem list_change_is_saved e a :
  wf a ->
  tasks (dispatch e a) <> tasks a ->
  localStorage (dispatch e a) = Some (saved (tasks (dispatch e a))).
Proof.
  intros Hwf Hch. destruct e as [s| |n tg|]; cbn [dispatch] in *.
  - done.
  - destruct (handleAdd_outcome a Hwf) as
      [(_ & _ & _ & _ & Hts & Hs & _)|(_ & m & Hrun & _)].
    + by rewrite Hts.
    + rewrite Hrun in Hch. by destruct m.
  - unfold taskList_onclick, closest_task_item in *.
    destruct (decide (n ∈ taskList a)); [|done].
    destruct tg; [| |done].
    + destruct (heap a !! n) as [t|] eqn:Ht.
      * by destruct (deleteTask_spec n a t Ht) as (_ & _ & _ & Hs & _).
      * unfold deleteTask in Hch. by rewrite Ht in Hch.
    + destruct (heap a !! n) as [t|] eqn:Ht.
      * by destruct (toggleComplete_spec n a t Ht) as (_ & _ & _ & _ & Hs & _).
      * unfold toggleComplete in Hch. by rewrite Ht in Hch.
  - by destruct (clearCompletedTasks_spec a) as (_ & _ & _ & Hs & _).
Qed.

Lemma list_change_is_saved_witness :
  localStorage (dispatch (click_item 1 complete_btn) two_tasks)
  = Some (saved (tasks (dispatch (click_item 1 complete_btn) two_tasks))).
Proof.
  apply list_change_is_saved.
  - unfold wf. vm_compute. repeat constructor.
  - vm_compute. discriminate.
Defined.

(** ** The children of the list *)

Lemma detach_NoDup n (l : list node) : NoDup l -> NoDup (detach n l).
Proof. apply NoDup_filter. Qed.

Lemma not_elem_of_detach_self n (l : list node) : n ∉ detach n l.
Proof. unfold detach. rewrite list_elem_of_filter. naive_solver. Qed.

Lemma detach_idem n (l : list node) : detach n (detach n l) = detach n l.
Proof. apply not_elem_of_detach, not_elem_of_detach_self. Qed.

Lemma detach_app n (l k : list node) :
  detach n (l ++ k) = detach n l ++ detach n k.
Proof. apply filter_app. Qed.

Lemma detach_here n (l : list node) : detach n (n :: l) = detach n l.
Proof. unfold detach. by rewrite filter_cons_False by naive_solver. Qed.

Lemma addTask_dom_ok text c id a : dom_ok a -> dom_ok (snd (addTask text c id a)).
Proof.
  intros [Hwf Hnd]. split; [by apply addTask_wf|].
  destruct (ToString (fst (id_or_now id a))) as [sid|] eqn:Hid.
  - destruct (addTask_spec text c id a sid Hwf Hid) as (_ & _ & Hl & _).
    rewrite Hl.
    assert (Hfresh : length (heap a) ∉ taskList a).
    { intros Hin. unfold wf in Hwf. rewrite Forall_forall in Hwf.
      specialize (Hwf _ Hin). lia. }
    destruct c.
    + apply NoDup_app. split; [done|]. split; [|apply NoDup_singleton].
      intros m Hm ->%list_elem_of_singleton. done.
    + by apply NoDup_cons.
  - unfold addTask. pose proof (id_or_now_frame id a) as Hfr.
    destruct (id_or_now id a) as [v a1]. simpl in Hid, Hfr.
    destruct Hfr as (_ & _ & Hl & _). rewrite Hid. simpl. by rewrite Hl.
Qed.

Lemma loadTasks_loop_dom_ok pending :
  forall validTaskCount invalidTaskCount a,
    dom_ok a ->
    dom_ok (snd (loadTasks_loop pending validTaskCount invalidTaskCount a)).
Proof.
  induction pending as [|d rest IH]; intros nv ni a Hok; simpl; [done|].
  destruct (isValidTaskData d).
  - pose proof (addTask_dom_ok (text_of d) (completed_of d) (get d "id") a Hok).
    destruct (addTask _ _ _ a) as [[?|?] a1]; simpl in *; [|done].
    by apply IH.
  - by apply IH.
Qed.

Lemma new_TodoApp_dom_ok slot clk : dom_ok (new_TodoApp slot clk).
Proof.
  unfold new_TodoApp, init, loadTasks.
  set (p := createEmptyState (page slot clk)).
  assert (Hp : dom_ok p) by (split; constructor).
  destruct slot as [[| |[|b|n|s|l|props]]|]; try exact Hp.
  simpl. pose proof (loadTasks_loop_dom_ok (rev l) 0 0 p Hp) as H.
  destruct (loadTasks_loop (rev l) 0 0 p) as [[[e|] [nv ni]] a1];
    simpl in *; [done|].
  by destruct (0 <? ni)%nat.
Qed.

Lemma dispatch_dom_ok e a : dom_ok a -> dom_ok (dispatch e a).
Proof.
  intros [Hwf Hnd]. destruct e as [s| |n tg|]; cbn [dispatch].
  - done.
  - split; [by apply handleAdd_wf|].
    destruct (handleAdd_outcome a Hwf) as
      [(_ & _ & _ & Hl & _)|(_ & m & Hrun & _)].
    + rewrite Hl. apply NoDup_cons. split; [|done].
      intros Hin. unfold wf in Hwf. rewrite Forall_forall in Hwf.
      specialize (Hwf _ Hin). lia.
    + rewrite Hrun. by destruct m.
  - unfold taskList_onclick, closest_task_item.
    destruct (decide (n ∈ taskList a)); [|done].
    destruct tg; [| |done].
    + split; [by apply deleteTask_wf|].
      unfold deleteTask. destruct (heap a !! n); [|done].
      simpl. by apply detach_NoDup.
    + split; [by apply toggleComplete_wf|].
      destruct (heap a !! n) as [t|] eqn:Ht.
      * destruct (toggleComplete_spec n a t Ht) as (_ & _ & Hl & _).
        rewrite Hl. destruct (completed t).
        -- apply NoDup_cons. split; [apply not_elem_of_detach_self|].
           by apply detach_NoDup.
        -- apply NoDup_app. split; [by apply detach_NoDup|].
           split; [|apply NoDup_singleton].
           intros m Hm ->%list_elem_of_singleton.
           by apply not_elem_of_detach_self in Hm.
      * unfold toggleComplete. by rewrite Ht.
  - split; [by apply clearCompletedTasks_wf|].
    unfold clearCompletedTasks.
    set (cs := filter (fun n => is_completed (heap a) n = true) (taskList a)).
    destruct (foldl_detach cs a) as (Hl & _). simpl. rewrite Hl.
    by apply NoDup_filter.
Qed.

Lemma run_dom_ok es a : dom_ok a -> dom_ok (run es a).
Proof.
  revert a. induction es as [|e es IH]; intros a H; [done|].
  simpl. by apply IH, dispatch_dom_ok.
Qed.

(** ** Deleting and toggling *)

(** Property X5.  In a list of distinct existing elements, [deleteTask]
    removes the task of the element it is given and no other: the tasks
    before it and the tasks after it stay, in their order, and the shorter
    list is saved. *)
Theorem deleteTask_removes_that_task a n l1 l2 :
  dom_ok a -> taskList a = l1 ++ n :: l2 ->
  exists t,
    heap a !! n = Some t
    /\ tasks a = tasks_of (heap a) l1 ++ t :: tasks_of (heap a) l2
    /\ taskList (snd (deleteTask n a)) = l1 ++ l2
    /\ tasks (snd (deleteTask n a))
       = tasks_of (heap a) l1 ++ tasks_of (heap a) l2
    /\ localStorage (snd (deleteTask n a))
       = Some (saved (tasks_of (heap a) l1 ++ tasks_of (heap a) l2)).
Proof.
  intros [Hwf Hnd] Hl. unfold wf in Hwf. rewrite Hl in Hwf, Hnd.
  apply Forall_app in Hwf as [_ [Hn _]%Forall_cons].
  apply lookup_lt_is_Some in Hn as [t Ht].
  apply NoDup_app in Hnd as (_ & Hn1 & [Hn2 _]%NoDup_cons).
  assert (Hn1' : n ∉ l1).
  { intros Hin. apply (Hn1 n Hin). left. }
  destruct (deleteTask_spec n a t Ht) as (_ & Hh & Hl' & Hs & _).
  assert (Hd : detach n (taskList a) = l1 ++ l2).
  { rewrite Hl, detach_app, detach_here.
    by rewrite !not_elem_of_detach. }
  rewrite Hd in Hl'.
  assert (Hts : tasks (snd (deleteTask n a))
                = tasks_of (heap a) l1 ++ tasks_of (heap a) l2).
  { unfold tasks. by rewrite Hh, Hl', tasks_of_app. }
  exists t. split; [done|]. split.
  { unfold tasks. by rewrite Hl, tasks_of_app, (tasks_of_cons _ _ _ t). }
  split; [done|]. split; [done|]. by rewrite Hs, Hts.
Qed.

Lemma deleteTask_removes_that_task_witness :
  exists t,
    heap two_tasks !! 1 = Some t
    /\ tasks two_tasks
       = tasks_of (heap two_tasks) [] ++ t :: tasks_of (heap two_tasks) [0]
    /\ taskList (snd (deleteTask 1 two_tasks)) = [] ++ [0]
    /\ tasks (snd (deleteTask 1 two_tasks))
       = tasks_of (heap two_tasks) [] ++ tasks_of (heap two_tasks) [0]
    /\ localStorage (snd (deleteTask 1 two_tasks))
       = Some (saved (tasks_of (heap two_tasks) []
                      ++ tasks_of (heap two_tasks) [0])).
Proof.
  assert (Hok : dom_ok two_tasks).
  { split; unfold wf; vm_compute; repeat constructor;
      intros H; inversion H as [|? ? ? H']; inversion H'. }
  assert (Hl : taskList two_tasks = [] ++ 1 :: [0])
    by (vm_compute; reflexivity).
  exact (deleteTask_removes_that_task two_tasks 1 [] [0] Hok Hl).
Defined.

(** Property X6.  Deleting the task that [handleAdd] just added undoes the
    add: the list is as before, and so is what the slot holds once a list
    had been saved. *)
Theorem delete_undoes_add a :
  wf a -> acceptable (taskInput_value a) (tasks a) ->
  let added := snd (handleAdd a) in
  let a' := snd (deleteTask (length (heap a)) added) in
  taskList added = length (heap a) :: taskList a
  /\ taskList a' = taskList a
  /\ tasks a' = tasks a
  /\ localStorage a' = Some (saved (tasks a)).
Proof.
  intros Hwf Hacc added a'. subst added a'.
  destruct (handleAdd_outcome a Hwf) as
    [(_ & _ & Hh & Hl & _)|(Hrej & _)]; [|done].
  set (t := mkTaskItem _ _ _) in Hh.
  assert (Hn : heap (snd (handleAdd a)) !! length (heap a) = Some t).
  { rewrite Hh. apply lookup_alloc. }
  destruct (deleteTask_spec _ _ t Hn) as (_ & Hh' & Hl' & Hs & _).
  rewrite Hl, detach_here, (detach_fresh (heap a)) in Hl' by done.
  assert (Hts : tasks (snd (deleteTask (length (heap a)) (snd (handleAdd a))))
                = tasks a).
  { unfold tasks at 1. rewrite Hh', Hl', Hh. by apply tasks_of_alloc. }
  split; [done|]. split; [done|]. split; [done|]. by rewrite Hs, Hts.
Qed.

Lemma delete_undoes_add_witness :
  let a := set_taskInput_value "Call mum" two_tasks in
  tasks (snd (deleteTask (length (heap a)) (snd (handleAdd a)))) = tasks a.
Proof.
  intros a.
  assert (Hwf : wf a) by (unfold wf; vm_compute; repeat constructor).
  assert (Hacc : acceptable (taskInput_value a) (tasks a)).
  { unfold acceptable.
    split; [vm_compute; discriminate|].
    split; [vm_compute; discriminate|].
    split; [vm_compute; lia|].
    intros u Hu Hc. vm_compute in Hu.
    apply elem_of_cons in Hu as [->|Hu]; [vm_compute; discriminate|].
    apply elem_of_cons in Hu as [->|Hu]; [vm_compute; discriminate|].
    by apply elem_of_nil in Hu. }
  destruct (delete_undoes_add a Hwf Hacc) as (_ & _ & Hts & _).
  exact Hts.
Defined.

(** Property X7.  Toggling an element twice gives it back its flag, id and
    text, but not its place: a task that was incomplete ends at the head of
    the list, a task that was completed ends at the tail; the other tasks
    keep their order. *)
Theorem toggleComplete_twice a n t :
  heap a !! n = Some t ->
  let a2 := snd (toggleComplete n (snd (toggleComplete n a))) in
  let others := tasks_of (heap a) (detach n (taskList a)) in
  heap a2 !! n = Some t
  /\ taskList a2
     = (if completed t then detach n (taskList a) ++ [n]
        else n :: detach n (taskList a))
  /\ tasks a2 = if completed t then others ++ [t] else t :: others.
Proof.
  intros Ht a2 others. subst a2 others.
  destruct (toggleComplete_spec n a t Ht) as (_ & Hh1 & Hl1 & _).
  set (a1 := snd (toggleComplete n a)) in *.
  set (t1 := mkTaskItem (dataset_id t) (textContent t) (negb (completed t)))
    in *.
  assert (Hn : n < length (heap a)) by (by eapply lookup_lt_Some).
  assert (Ht1 : heap a1 !! n = Some t1).
  { rewrite Hh1. by apply list_lookup_insert_eq. }
  destruct (toggleComplete_spec n a1 t1 Ht1) as (_ & Hh2 & Hl2 & Hts2 & _).
  assert (Hback : mkTaskItem (dataset_id t1) (textContent t1)
                    (negb (completed t1)) = t).
  { subst t1. simpl. rewrite negb_involutive. by destruct t. }
  rewrite Hback in Hh2, Hts2.
  assert (Hd : detach n (taskList a1) = detach n (taskList a)).
  { rewrite Hl1. destruct (completed t).
    - by rewrite detach_here, detach_idem.
    - rewrite detach_app, detach_idem, detach_here. simpl.
      apply app_nil_r. }
  rewrite Hd in Hl2, Hts2. rewrite Hh1, tasks_of_insert_detach in Hts2.
  split; [|split].
  - rewrite Hh2. apply list_lookup_insert_eq. by rewrite Hh1, length_insert.
  - rewrite Hl2. subst t1. simpl. by destruct (completed t).
  - rewrite Hts2. subst t1. simpl. by destruct (completed t).
Qed.

Lemma toggleComplete_twice_witness :
  heap (snd (toggleComplete 0 (snd (toggleComplete 0 two_tasks)))) !! 0
  = Some (mkTaskItem "1700000000000" "Buy milk" true).
Proof.
  assert (Ht : heap two_tasks !! 0
               = Some (mkTaskItem "1700000000000" "Buy milk" true))
    by (vm_compute; reflexivity).
  destruct (toggleComplete_twice two_tasks 0 _ Ht) as (Hh & _).
  exact Hh.
Defined.

(** ** Exceptions *)

(** Property X8.  In a state whose list holds existing elements, no
    exception leaves an event listener: [handleAdd], the click listener of
    the list (for a click inside or outside an item) and
    [clearCompletedTasks] all return normally. *)
Theorem listeners_do_not_throw a :
  wf a ->
  fst (handleAdd a) = Return undefined
  /\ (forall n tg,
        fst (taskList_onclick (closest_task_item n a) tg a)
        = Return undefined)
  /\ fst (clearCompletedTasks a) = Return undefined.
Proof.
  intros Hwf. split; [|split].
  - destruct (handleAdd_outcome a Hwf) as
      [(_ & Hr & _)|(_ & m & Hrun & _)]; [done|]. by rewrite Hrun.
  - intros n tg. unfold taskList_onclick, closest_task_item.
    destruct (decide (n ∈ taskList a)) as [Hn|]; [|done].
    unfold wf in Hwf. rewrite Forall_forall in Hwf.
    apply Hwf, lookup_lt_is_Some in Hn as [t Ht].
    destruct tg; [| |done].
    + by destruct (deleteTask_spec n a t Ht) as (Hr & _).
    + by destruct (toggleComplete_spec n a t Ht) as (Hr & _).
  - reflexivity.
Qed.

Lemma listeners_do_not_throw_witness :
  fst (handleAdd two_tasks) = Return undefined.
Proof.
  assert (Hwf : wf two_tasks) by (unfold wf; vm_compute; repeat constructor).
  destruct (listeners_do_not_throw two_tasks Hwf) as (Hr & _).
  exact Hr.
Defined.


(** ** What opening a page can do to the slot *)

Lemma addTask_storage text c id a :
  wf a ->
  let a' := snd (addTask text c id a) in
  alerts a' = alerts a
  /\ ((localStorage a' = localStorage a /\ tasks a' = tasks a)
      \/ localStorage a' = Some (saved (tasks a'))).
Proof.
  intros Hwf a'. subst a'. split; [apply addTask_alerts|].
  destruct (ToString (fst (id_or_now id a))) as [sid|] eqn:Hid.
  - right. by destruct (addTask_spec text c id a sid Hwf Hid)
      as (_ & _ & _ & _ & Hs & _).
  - left. unfold addTask. pose proof (id_or_now_frame id a) as Hfr.
    destruct (id_or_now id a) as [v a1]. simpl in Hid, Hfr.
    destruct Hfr as (_ & Hh & Hl & Hs & _). rewrite Hid. simpl.
    unfold tasks. by rewrite Hh, Hl, Hs.
Qed.

Lemma loadTasks_loop_storage pending :
  forall validTaskCount invalidTaskCount a,
    wf a ->
    let a' := snd (loadTasks_loop pending validTaskCount invalidTaskCount a) in
    alerts a' = alerts a
    /\ ((localStorage a' = localStorage a /\ tasks a' = tasks a)
        \/ localStorage a' = Some (saved (tasks a'))).
Proof.
  induction pending as [|d rest IH]; intros nv ni a Hwf; simpl.
  { split; [done|by left]. }
  destruct (isValidTaskData d).
  - destruct (addTask_storage (text_of d) (completed_of d) (get d "id") a Hwf)
      as [Hal Hs].
    pose proof (addTask_wf (text_of d) (completed_of d) (get d "id") a Hwf)
      as Hwf1.
    destruct (addTask _ _ _ a) as [[r|e] a1]; simpl in *; [|done].
    destruct (IH (S nv) ni a1 Hwf1) as [Hal' Hs']. split; [congruence|].
    destruct Hs' as [[Hs1 Hts1]|Hs']; [|by right].
    destruct Hs as [[Hs0 Hts0]|Hs]; [left; split|right]; congruence.
  - destruct (IH nv (S ni) (console_log (warn_skipped d) a) Hwf) as [Hal Hs].
    done.
Qed.

(** Property X10.  Whatever the slot holds when the page opens, one of two
    things happens.  Either nothing is reported, and then the slot is left
    as it was beside an empty list, or it holds exactly the list.  Or one
    corruption message is reported, and then the slot is removed; this never
    happens for an absent or empty slot. *)
Theorem page_load_outcome slot clk :
  let a := new_TodoApp slot clk in
  (alerts a = []
   /\ ((localStorage a = slot /\ tasks a = [])
       \/ localStorage a = Some (saved (tasks a))))
  \/ (exists e, alerts a = [DATA_CORRUPT e]
                /\ localStorage a = None
                /\ slot <> None /\ slot <> Some Blank).
Proof.
  intros a. subst a. unfold new_TodoApp, init, loadTasks.
  set (p := createEmptyState (page slot clk)).
  assert (Hp : wf p) by constructor.
  destruct slot as [[| |[|b|n|s|l|props]]|] eqn:Hslot;
    try (left; split; [reflexivity|left; split; reflexivity]);
    try (right; eexists; repeat apply conj; try reflexivity; discriminate).
  destruct (loadTasks_loop_storage (rev l) 0 0 p Hp) as [Hal Hs].
  cbn [localStorage p createEmptyState set_emptyState_display page].
  destruct (loadTasks_loop (rev l) 0 0 p) as [[[e|] [nv ni]] a1];
    simpl in Hal, Hs.
  - right. exists e. simpl. rewrite Hal.
    repeat apply conj; try reflexivity; discriminate.
  - left.
    assert (Hout : alerts a1 = []
                   /\ ((localStorage a1 = Some (Json (JArray l))
                        /\ tasks a1 = [])
                       \/ localStorage a1 = Some (saved (tasks a1)))).
    { split; [exact Hal|]. destruct Hs as [[? ?]|?]; [left|right]; done. }
    by destruct (0 <? ni)%nat.
Qed.

Lemma loadTasks_loop_app p1 :
  forall p2 nv ni a nv' ni' a1,
    loadTasks_loop p1 nv ni a = (None, (nv', ni'), a1) ->
    loadTasks_loop (p1 ++ p2) nv ni a = loadTasks_loop p2 nv' ni' a1.
Proof.
  induction p1 as [|d rest IH]; intros p2 nv ni a nv' ni' a1 H; simpl in *.
  { by injection H as <- <- <-. }
  destruct (isValidTaskData d).
  - destruct (addTask _ _ _ a) as [[r|e] a2]; [|done]. by apply IH.
  - by apply IH.
Qed.

(** Property X11.  When the id of a valid stored record does not convert to
    a string, the load stops there.  The records stored after it, which the
    loop visits first, are in the list; the records stored before it are
    never looked at; the corruption is reported and the slot removed. *)
Theorem load_aborts_at_unconvertible_id l1 d l2 clk :
  isValidTaskData d = true -> id_converts d = false ->
  (forall d', d' ∈ l2 -> isValidTaskData d' = true -> id_converts d' = true) ->
  let a := new_TodoApp (Some (Json (JArray (l1 ++ d :: l2)))) clk in
  alerts a = [DATA_CORRUPT TypeError]
  /\ localStorage a = None
  /\ exists inc comp,
       tasks a = inc ++ rev comp
       /\ Forall2 (loaded_from clk) (List.filter valid_incomplete l2) inc
       /\ Forall2 (loaded_from clk) (List.filter valid_completed l2) comp.
Proof.
  intros Hv Hid Hids a. subst a. unfold new_TodoApp, init, loadTasks.
  set (p := createEmptyState (page _ clk)).
  assert (Hp : wf p) by constructor.
  destruct (loadTasks_loop_spec (rev l2) 0 0 p Hp) as
    (a1 & inc & comp & Hloop & Hts & Hinc & Hcomp & _ & Hal & _).
  { intros d' Hd'. apply Hids. apply list_elem_of_In, in_rev.
    by apply list_elem_of_In. }
  apply Forall2_rev in Hinc, Hcomp.
  rewrite filter_rev, rev_involutive in Hinc, Hcomp.
  assert (Hthrow : addTask (text_of d) (completed_of d) (get d "id") a1
                   = (Throw TypeError, a1)).
  { unfold id_converts in Hid. unfold addTask, id_or_now.
    destruct (get d "id") as [v|]; [|done].
    destruct (truthy v); [|done].
    destruct (ToString v) as [sid|] eqn:Hs; [|done].
    exfalso. apply bool_decide_eq_false in Hid. apply Hid. by eexists. }
  cbn [localStorage p createEmptyState set_emptyState_display page].
  rewrite rev_app_distr. simpl. rewrite <- app_assoc.
  rewrite (loadTasks_loop_app _ _ _ _ _ _ _ _ Hloop). simpl.
  rewrite Hv, Hthrow. simpl. rewrite Hal.
  split; [reflexivity|]. split; [reflexivity|].
  exists (rev inc), (rev comp). rewrite rev_involutive.
  split; [|done].
  change (tasks a1 = rev inc ++ comp). rewrite Hts. simpl.
  change (tasks p) with (@nil TaskItem). done.
Qed.

Lemma load_aborts_at_unconvertible_id_witness :
  let d := JObject [("id", JObject [("toString", JNumber 1)]);
                    ("text", JString "a"); ("completed", JBool false)] in
  let a := new_TodoApp
             (Some (Json (JArray ([record_without_id "x" false]
                                  ++ d :: [record_without_id "b" true]))))
             clock_example in
  alerts a = [DATA_CORRUPT TypeError] /\ localStorage a = None.
Proof.
  intros d a.
  assert (Hids : forall d', d' ∈ [record_without_id "b" true] ->
                   isValidTaskData d' = true -> id_converts d' = true).
  { intros d' Hd' _. apply list_elem_of_singleton in Hd' as ->. reflexivity. }
  destruct (load_aborts_at_unconvertible_id [record_without_id "x" false] d
              [record_without_id "b" true] clock_example
              eq_refl eq_refl Hids) as (Hal & Hs & _).
  split; [exact Hal|exact Hs].
Defined.

(** ** Reloading *)

Lemma filter_all {A} (f : A -> bool) (l : list A) :
  Forall (fun x => f x = true) l -> List.filter f l = l.
Proof.
  induction 1 as [|x l Hx _ IH]; [done|]. simpl. by rewrite Hx, IH.
Qed.

Lemma filter_none {A} (f : A -> bool) (l : list A) :
  Forall (fun x => f x = false) l -> List.filter f l = [].
Proof.
  induction 1 as [|x l Hx _ IH]; [done|]. simpl. by rewrite Hx, IH.
Qed.

Lemma regions_filters (l : list TaskItem) :
  regions l ->
  l = List.filter (fun t => negb (completed t)) l
      ++ List.filter (fun t => completed t) l.
Proof.
  intros (l1 & l2 & -> & H1 & H2). rewrite !List.filter_app.
  rewrite (filter_all _ l1), (filter_none _ l2), (filter_none _ l1),
    (filter_all _ l2); [by rewrite app_nil_r| | | |].
  - done.
  - eapply Forall_impl; [exact H1|]. by intros t ->.
  - eapply Forall_impl; [exact H2|]. by intros t ->.
  - eapply Forall_impl; [exact H1|]. by intros t ->.
Qed.

(** The page opened on a saved list. *)
Lemma new_TodoApp_saved (l : list TaskItem) clk :
  Forall (fun t => dataset_id t <> "") l ->
  Forall (fun t => trim (textContent t) <> "") l ->
  let a := new_TodoApp (Some (saved l)) clk in
  tasks a = List.filter (fun t => negb (completed t)) l
            ++ rev (List.filter (fun t => completed t) l)
  /\ alerts a = []
  /\ localStorage a = Some (saved (tasks a)).
Proof.
  intros Hids Htxt a. subst a.
  pose proof (save_load_order l clk Hids Htxt) as Hts.
  destruct (new_TodoApp_array (map task_to_json l) clk) as
    (_ & _ & _ & _ & _ & Hal & _ & Hs & Hs').
  { intros d Hd _. apply list_elem_of_fmap in Hd as (t & -> & Ht).
    rewrite Forall_forall in Hids. specialize (Hids t Ht).
    unfold id_converts. simpl. by rewrite (eqb_empty_false _ Hids). }
  split; [exact Hts|]. split; [exact Hal|]. unfold saved in *.
  destruct l as [|t l].
  - rewrite Hs' by done. by rewrite Hts.
  - apply Hs. simpl. apply Forall_cons in Htxt as [Ht _].
    by rewrite (task_to_json_valid t Ht).
Qed.

Lemma filter_rev_filter {A} (f g : A -> bool) (l : list A) :
  (forall x, g x = true -> f x = false) ->
  List.filter f (rev (List.filter g l)) = [].
Proof.
  intros Hfg. apply filter_none, Forall_forall. intros x Hx. apply Hfg.
  apply list_elem_of_In in Hx. rewrite <- in_rev in Hx.
  by apply filter_In in Hx as [_ ?].
Qed.

Lemma filter_filter_same {A} (f : A -> bool) (l : list A) :
  List.filter f (List.filter f l) = List.filter f l.
Proof.
  apply filter_all, Forall_forall. intros x Hx.
  apply list_elem_of_In in Hx. by apply filter_In in Hx as [_ ?].
Qed.

Lemma filter_filter_none {A} (f g : A -> bool) (l : list A) :
  (forall x, g x = true -> f x = false) ->
  List.filter f (List.filter g l) = [].
Proof.
  intros Hfg. apply filter_none, Forall_forall. intros x Hx. apply Hfg.
  apply list_elem_of_In in Hx. by apply filter_In in Hx as [_ ?].
Qed.

Lemma Forall_filter_rev {A} (P : A -> Prop) (f g : A -> bool) (l : list A) :
  Forall P l -> Forall P (List.filter f l ++ rev (List.filter g l)).
Proof.
  intros H. rewrite Forall_forall in *. intros x Hx. apply H.
  apply elem_of_app in Hx as [Hx|Hx]; apply list_elem_of_In in Hx.
  - apply list_elem_of_In. by apply filter_In in Hx as [? _].
  - rewrite <- in_rev in Hx. apply list_elem_of_In.
    by apply filter_In in Hx as [? _].
Qed.

(** Property X12.  Save a list whose ids are not empty and whose texts do
    not trim to nothing, and open a page on it: the incomplete tasks come
    back in their order, the completed tasks in the reverse of theirs, and
    that list is what the slot then holds.  So a list in incomplete-first
    order with at most one completed task comes back as it was, and any list
    in incomplete-first order comes back as it was after a second reload. *)
Theorem reload_twice_restores (l : list TaskItem) clk1 clk2 :
  Forall (fun t => dataset_id t <> "") l ->
  Forall (fun t => trim (textContent t) <> "") l ->
  incomplete_first l ->
  let a1 := new_TodoApp (Some (saved l)) clk1 in
  let a2 := new_TodoApp (localStorage a1) clk2 in
  tasks a1 = List.filter (fun t => negb (completed t)) l
             ++ rev (List.filter (fun t => completed t) l)
  /\ (length (List.filter (fun t => completed t) l) <= 1 -> tasks a1 = l)
  /\ tasks a2 = l.
Proof.
  intros Hids Htxt Hinc a1 a2. subst a1 a2.
  destruct (new_TodoApp_saved l clk1 Hids Htxt) as (Hts1 & _ & Hs1).
  pose proof (regions_filters l (incomplete_first_regions l Hinc)) as Hl.
  split; [exact Hts1|]. split.
  - intros Hlen. rewrite Hts1.
    destruct (List.filter (fun t => completed t) l) as [|t [|t' k]] eqn:Hc;
      simpl in Hlen; [| |lia]; simpl; symmetry; exact Hl.
  - rewrite Hs1, Hts1.
    set (l' := List.filter _ l ++ rev (List.filter _ l)).
    destruct (new_TodoApp_saved l' clk2) as (Hts2 & _).
    { by apply Forall_filter_rev. }
    { by apply Forall_filter_rev. }
    rewrite Hts2. subst l'. rewrite !List.filter_app.
    rewrite (filter_rev_filter (fun t => negb (completed t))
               (fun t => completed t)) by (by intros t ->).
    rewrite (filter_filter_none (fun t => completed t)
               (fun t => negb (completed t)))
      by (intros t Ht; by apply negb_true_iff in Ht).
    rewrite !filter_filter_same, filter_rev, filter_filter_same.
    simpl. by rewrite rev_involutive, app_nil_r, <- Hl.
Qed.

Lemma reload_twice_restores_witness :
  tasks (new_TodoApp
           (localStorage
              (new_TodoApp
                 (Some (saved [mkTaskItem "3" "c" false;
                               mkTaskItem "1" "a" true;
                               mkTaskItem "2" "b" true]))
                 clock_example))
           clock_example)
  = [mkTaskItem "3" "c" false; mkTaskItem "1" "a" true;
     mkTaskItem "2" "b" true].
Proof.
  assert (Hids : Forall (fun t => dataset_id t <> "")
                   [mkTaskItem "3" "c" false; mkTaskItem "1" "a" true;
                    mkTaskItem "2" "b" true])
    by (repeat constructor; discriminate).
  assert (Htxt : Forall (fun t => trim (textContent t) <> "")
                   [mkTaskItem "3" "c" false; mkTaskItem "1" "a" true;
                    mkTaskItem "2" "b" true])
    by (repeat constructor; vm_compute; discriminate).
  assert (Hinc : incomplete_first
                   [mkTaskItem "3" "c" false; mkTaskItem "1" "a" true;
                    mkTaskItem "2" "b" true]).
  { apply regions_incomplete_first.
    exists [mkTaskItem "3" "c" false],
           [mkTaskItem "1" "a" true; mkTaskItem "2" "b" true].
    split; [reflexivity|]. split; repeat constructor. }
  destruct (reload_twice_restores _ clock_example clock_example
              Hids Htxt Hinc) as (_ & _ & H2).
  exact H2.
Defined.

(** ** Sessions *)

Lemma dispatch_wf e a : wf a -> wf (dispatch e a).
Proof.
  intros Hwf. destruct e as [s| |n tg|]; cbn [dispatch].
  - done.
  - by apply handleAdd_wf.
  - unfold taskList_onclick. destruct (closest_task_item n a); [|done].
    destruct tg; [by apply deleteTask_wf|by apply toggleComplete_wf|done].
  - by apply clearCompletedTasks_wf.
Qed.

Lemma run_wf es a : wf a -> wf (run es a).
Proof.
  revert a. induction es as [|e es IH]; intros a H; [done|].
  simpl. by apply IH, dispatch_wf.
Qed.

(** A property of single tasks that does not look at the flag is kept by
    every event, as long as the task [handleAdd] makes has it. *)
Lemma dispatch_Forall (P : TaskItem -> Prop) e a :
  (forall t b, P t -> P (mkTaskItem (dataset_id t) (textContent t) b)) ->
  (acceptable (taskInput_value a) (tasks a) ->
   P (mkTaskItem (number_to_string (clock a (ticks a)))
        (trim (taskInput_value a)) false)) ->
  wf a -> Forall P (tasks a) -> Forall P (tasks (dispatch e a)).
Proof.
  intros Hflag Hnew Hwf Hok. destruct e as [s| |n tg|]; cbn [dispatch].
  - done.
  - destruct (handleAdd_outcome a Hwf) as
      [(Hacc & _ & _ & _ & Hts & _)|(_ & m & Hrun & _)].
    + rewrite Hts. constructor; [by apply Hnew|done].
    + rewrite Hrun. by destruct m.
  - unfold taskList_onclick, closest_task_item.
    destruct (decide (n ∈ taskList a)) as [Hn|]; [|done].
    destruct tg; [| |done].
    + unfold deleteTask. destruct (heap a !! n); [|done]. simpl.
      eapply Forall_sublist_of; [|exact Hok]. apply tasks_of_filter_sublist.
    + destruct (heap a !! n) as [t|] eqn:Ht.
      * destruct (toggleComplete_spec n a t Ht) as (_ & _ & _ & Hts & _).
        rewrite Hts.
        assert (Forall P (tasks_of (heap a) (detach n (taskList a)))).
        { eapply Forall_sublist_of; [|exact Hok].
          apply tasks_of_filter_sublist. }
        assert (P t).
        { rewrite Forall_forall in Hok. apply Hok.
          by apply (elem_of_tasks_of _ _ n). }
        destruct (completed t).
        -- constructor; [by apply Hflag|done].
        -- apply Forall_app. split; [done|]. constructor; [by apply Hflag|done].
      * unfold toggleComplete. by rewrite Ht.
  - destruct (clearCompletedTasks_spec a) as (_ & _ & Hts & _).
    rewrite Hts. eapply Forall_sublist_of; [|exact Hok]. apply sublist_filter.
Qed.

Lemma acceptable_text_ok v l :
  acceptable v l -> text_ok (mkTaskItem (number_to_string 0) (trim v) false).
Proof.
  intros (_ & Ht & Hl & _). repeat split; simpl; [apply trim_idem|done|].
  etrans; [apply length_trim|done].
Qed.

Lemma events_text_step e a :
  wf a -> Forall text_ok (tasks a) -> Forall text_ok (tasks (dispatch e a)).
Proof.
  intros Hwf Hok. apply dispatch_Forall; [| |exact Hwf|exact Hok].
  - by intros t b (? & ? & ?).
  - intros Hacc. apply acceptable_text_ok in Hacc.
    destruct Hacc as (? & ? & ?). by repeat split.
Qed.

(** Property X13.  From any state whose list holds existing elements and
    whose task texts are trimmed, not empty and at most 200 characters long,
    every sequence of user events leads to a state whose task texts are so
    too: [handleAdd] is the only way a text enters the list, and it trims
    and checks it. *)
Theorem events_keep_text_ok es a :
  wf a -> Forall text_ok (tasks a) -> Forall text_ok (tasks (run es a)).
Proof.
  revert a. induction es as [|e es IH]; intros a Hwf Hok; [done|].
  simpl. apply IH; [by apply dispatch_wf|]. by apply events_text_step.
Qed.

Lemma events_keep_text_ok_witness :
  Forall text_ok
    (tasks (run [type_text "  Call mum  "; click_add;
                 click_item 0 complete_btn] two_tasks)).
Proof.
  apply events_keep_text_ok.
  - unfold wf. vm_compute. repeat constructor.
  - vm_compute. repeat constructor; try discriminate; lia.
Defined.

Lemma number_to_string_not_empty n : number_to_string n <> "".
Proof.
  unfold number_to_string. destruct (Z.to_int n) as [d|d]; simpl; [|done].
  destruct d; simpl; try done.
Qed.

Lemma number_to_string_inj n m :
  number_to_string n = number_to_string m -> n = m.
Proof.
  unfold number_to_string. intros H. apply DecimalZ.to_int_inj.
  assert (Hnil : forall z, Z.to_int z <> Decimal.Pos Decimal.Nil
                           /\ Z.to_int z <> Decimal.Neg Decimal.Nil).
  { intros [|p|p]; simpl; split; try discriminate;
      intros [=Hp]; by apply DecimalPos.Unsigned.to_uint_nonnil in Hp. }
  destruct (Hnil n) as [Hn1 Hn2]. destruct (Hnil m) as [Hm1 Hm2].
  pose proof (NilZero.isi _ Hn1 Hn2) as Hn.
  pose proof (NilZero.isi _ Hm1 Hm2) as Hm.
  rewrite H in Hn. congruence.
Qed.

(** In a session that began with an empty slot, the slot holds the list as
    soon as anything was saved. *)
Lemma dispatch_sync e a :
  wf a ->
  in_sync a \/ (localStorage a = None /\ tasks a = []) ->
  in_sync (dispatch e a)
  \/ (localStorage (dispatch e a) = None /\ tasks (dispatch e a) = []).
Proof.
  intros Hwf Hs. unfold in_sync in *.
  destruct e as [s| |n tg|]; cbn [dispatch].
  - done.
  - destruct (handleAdd_outcome a Hwf) as
      [(_ & _ & _ & _ & Hts & Hs' & _)|(_ & m & Hrun & _)].
    + left. by rewrite Hts.
    + rewrite Hrun. by destruct m.
  - unfold taskList_onclick, closest_task_item.
    destruct (decide (n ∈ taskList a)) as [Hn|]; [|done].
    unfold wf in Hwf. rewrite Forall_forall in Hwf.
    apply Hwf, lookup_lt_is_Some in Hn as [t Ht].
    destruct tg; [| |done]; left.
    + by destruct (deleteTask_spec n a t Ht) as (_ & _ & _ & Hs' & _).
    + by destruct (toggleComplete_spec n a t Ht) as (_ & _ & _ & _ & Hs' & _).
  - left. by destruct (clearCompletedTasks_spec a) as (_ & _ & _ & Hs' & _).
Qed.

Lemma filter_flags_Permutation (l : list TaskItem) :
  List.filter (fun t => negb (completed t)) l
  ++ rev (List.filter (fun t => completed t) l) ≡ₚ l.
Proof.
  rewrite <- Permutation_rev.
  induction l as [|t l IH]; [done|]. simpl.
  destruct (completed t); simpl.
  - by rewrite <- Permutation_middle, IH.
  - by rewrite IH.
Qed.

Lemma run_session_ok es a : session_ok a -> session_ok (run es a).
Proof.
  revert a. induction es as [|e es IH]; intros a (Hwf & Hok & Hids & Hs);
    [done|].
  simpl. apply IH. split; [by apply dispatch_wf|].
  split; [by apply (events_text_step e)|].
  split; [|by apply dispatch_sync].
  apply dispatch_Forall; [done| |done|done].
  intros _. apply number_to_string_not_empty.
Qed.

Lemma new_TodoApp_session_ok clk : session_ok (new_TodoApp None clk).
Proof.
  split; [constructor|]. split; [constructor|]. split; [constructor|].
  right. split; reflexivity.
Qed.

(** Property X14.  After any sequence of user events on a page that opened
    with an empty slot, reloading loses nothing: a new page opened on the
    slot reports nothing and shows every task with its id, text and flag,
    the incomplete tasks in their order and the completed tasks in the
    reverse of theirs. *)
Theorem session_survives_reload clk clk' es :
  let a := run es (new_TodoApp None clk) in
  let b := new_TodoApp (localStorage a) clk' in
  alerts b = []
  /\ tasks b = List.filter (fun t => negb (completed t)) (tasks a)
               ++ rev (List.filter (fun t => completed t) (tasks a))
  /\ tasks b ≡ₚ tasks a.
Proof.
  intros a b. subst b.
  destruct (run_session_ok es _ (new_TodoApp_session_ok clk))
    as (_ & Hok & Hids & Hs).
  fold a in Hok, Hids, Hs.
  assert (Hreload :
            alerts (new_TodoApp (localStorage a) clk') = []
            /\ tasks (new_TodoApp (localStorage a) clk')
               = List.filter (fun t => negb (completed t)) (tasks a)
                 ++ rev (List.filter (fun t => completed t) (tasks a))).
  { destruct Hs as [Hs|[Hs Hts]].
    - unfold in_sync in Hs. rewrite Hs.
      destruct (new_TodoApp_saved (tasks a) clk' Hids) as (H1 & H2 & _);
        [|done].
      eapply Forall_impl; [exact Hok|]. intros t (Ht & Hne & _). congruence.
    - rewrite Hs, Hts. split; reflexivity. }
  destruct Hreload as [Hal Hts].
  split; [done|]. split; [done|]. rewrite Hts. apply filter_flags_Permutation.
Qed.

(** ** Ids from a clock that moves *)

Lemma handleAdd_accept_clock a :
  acceptable (taskInput_value a) (tasks a) ->
  clock (snd (handleAdd a)) = clock a
  /\ ticks (snd (handleAdd a)) = S (ticks a).
Proof.
  intros (Hv & Ht & Hl & Hdup). unfold handleAdd.
  rewrite (eqb_empty_false _ Hv), (eqb_empty_false _ Ht).
  replace (MAX_TASK_LENGTH <? String.length (taskInput_value a))%nat
    with false by (symmetry; by apply Nat.ltb_ge).
  replace (existsb _ (tasks a)) with false; [split; reflexivity|].
  symmetry. apply not_true_is_false. intros Hex.
  apply existsb_exists in Hex as (u & Hu & Hex).
  apply andb_true_iff in Hex as [Heq%String.eqb_eq Hc%negb_true_iff].
  apply (Hdup u); [by apply list_elem_of_In|done|done].
Qed.

Lemma foldl_detach_ticks (cs : list node) a :
  ticks (foldl (fun a' taskItem =>
                  set_taskList (detach taskItem (taskList a')) a') a cs)
  = ticks a.
Proof.
  revert a. induction cs as [|c cs IH]; intros a; [done|].
  simpl. by rewrite IH.
Qed.

Lemma dispatch_clock e a :
  wf a ->
  clock (dispatch e a) = clock a
  /\ ticks a <= ticks (dispatch e a)
  /\ (heap (dispatch e a) = heap a
      \/ (heap (dispatch e a)
          = heap a ++ [mkTaskItem (number_to_string (clock a (ticks a)))
                         (trim (taskInput_value a)) false]
          /\ ticks (dispatch e a) = S (ticks a))
      \/ exists n t b,
           heap a !! n = Some t
           /\ heap (dispatch e a)
              = <[n := mkTaskItem (dataset_id t) (textContent t) b]> (heap a)).
Proof.
  intros Hwf. destruct e as [s| |n tg|]; cbn [dispatch].
  - split; [done|]. split; [done|by left].
  - destruct (handleAdd_outcome a Hwf) as
      [(Hacc & _ & Hh & _)|(_ & m & Hrun & _)].
    + destruct (handleAdd_accept_clock a Hacc) as [Hck Htk].
      split; [done|]. split; [lia|]. right. left. done.
    + rewrite Hrun. split; [by destruct m|]. split; [by destruct m|].
      left. by destruct m.
  - unfold taskList_onclick, closest_task_item.
    destruct (decide (n ∈ taskList a)); [|by (split; [|split; [|left]])].
    destruct tg; [| |by (split; [|split; [|left]])].
    + unfold deleteTask. destruct (heap a !! n);
        by (split; [|split; [|left]]).
    + destruct (heap a !! n) as [t|] eqn:Ht.
      * destruct (toggleComplete_spec n a t Ht) as (_ & Hh & _).
        assert (clock (snd (toggleComplete n a)) = clock a
                /\ ticks (snd (toggleComplete n a)) = ticks a) as [Hck Htk].
        { unfold toggleComplete. rewrite Ht.
          by destruct (completed t). }
        split; [done|]. split; [lia|]. right. right. by eauto.
      * unfold toggleComplete. rewrite Ht. by (split; [|split; [|left]]).
  - destruct (clearCompletedTasks_spec a) as (_ & Hh & _).
    unfold clearCompletedTasks in *.
    set (cs := filter (fun n => is_completed (heap a) n = true) (taskList a))
      in *.
    destruct (foldl_detach cs a) as (_ & _ & _ & _ & Hck & _).
    pose proof (foldl_detach_ticks cs a) as Htk.
    simpl in *. rewrite Hck, Htk. split; [done|]. split; [done|by left].
Qed.

Lemma dispatch_stamped e a : wf a -> stamped a -> stamped (dispatch e a).
Proof.
  intros Hwf (ks & Hks & Hlt & Hnd).
  destruct (dispatch_clock e a Hwf) as (Hck & Htk & Hh).
  unfold stamped. rewrite Hck.
  destruct Hh as [->|[[-> Htk']|(n & t & b & Ht & ->)]].
  - exists ks. split; [done|]. split; [|done].
    eapply Forall_impl; [exact Hlt|]. simpl. lia.
  - exists (ks ++ [ticks a]). split; [|split].
    + apply Forall2_app; [done|]. by repeat constructor.
    + rewrite Htk'. apply Forall_app. split; [|by repeat constructor].
      eapply Forall_impl; [exact Hlt|]. simpl. lia.
    + apply NoDup_app. split; [done|]. split; [|apply NoDup_singleton].
      intros k Hk ->%list_elem_of_singleton.
      rewrite Forall_forall in Hlt. specialize (Hlt _ Hk). lia.
  - exists ks. split; [|split; [|done]].
    + destruct (Forall2_lookup_r _ _ _ _ _ Hks Ht) as (k & Hk & Hid).
      rewrite <- (list_insert_id ks n k Hk).
      by apply Forall2_insert.
    + eapply Forall_impl; [exact Hlt|]. simpl. lia.
Qed.

Lemma NoDup_tasks_of_ids (h : list TaskItem) (l : list node) :
  NoDup (map dataset_id h) -> NoDup l ->
  NoDup (map dataset_id (tasks_of h l)).
Proof.
  intros Hh. induction 1 as [|n l Hn Hl IH]; [constructor|].
  rewrite tasks_of_step. destruct (h !! n) as [t|] eqn:Ht; [|done].
  simpl. apply NoDup_cons. split; [|done].
  intros Hin. apply list_elem_of_fmap in Hin as (t' & Heq & Hin).
  apply list_elem_of_omap in Hin as (m & Hm & Ht').
  assert (n = m); [|by subst]. unfold node in *.
  apply (NoDup_lookup (map dataset_id h) n m (dataset_id t)); [done| |].
  - by rewrite list_lookup_fmap, Ht.
  - by rewrite list_lookup_fmap, Ht', Heq.
Qed.

Lemma stamped_ids a :
  advancing (clock a) -> stamped a -> NoDup (map dataset_id (heap a)).
Proof.
  intros Hadv (ks & Hks & _ & Hnd).
  assert (Hmap : map dataset_id (heap a)
                 = map (fun k => number_to_string (clock a k)) ks).
  { clear Hnd.
    induction Hks as [|k t ks h Hkt _ IH]; [done|]. simpl. by rewrite Hkt, IH. }
  rewrite Hmap. apply NoDup_fmap_2_strong; [|done].
  intros i j _ _ Hij%number_to_string_inj.
  destruct (Nat.lt_trichotomy i j) as [Hlt|[->|Hlt]]; [|done|];
    apply Hadv in Hlt; lia.
Qed.

Lemma run_stamped es a :
  wf a -> stamped a ->
  stamped (run es a) /\ clock (run es a) = clock a.
Proof.
  revert a. induction es as [|e es IH]; intros a Hwf Hst; [done|].
  simpl. destruct (dispatch_clock e a Hwf) as (Hck & _).
  destruct (IH (dispatch e a)) as [Hst' Hck'];
    [by apply dispatch_wf|by apply dispatch_stamped|].
  split; [done|congruence].
Qed.

(** Property X15.  When the clock moves between any two readings, the ids
    in the list are pairwise different throughout a session that began with
    an empty slot: every id is the reading [handleAdd] took when it made the
    task, and toggling, deleting and clearing give no task a new id. *)
Theorem advancing_clock_unique_ids clk es :
  advancing clk ->
  NoDup (map dataset_id (tasks (run es (new_TodoApp None clk)))).
Proof.
  intros Hadv.
  destruct (run_dom_ok es _ (new_TodoApp_dom_ok None clk)) as [_ Hnd].
  destruct (run_stamped es (new_TodoApp None clk)) as [Hst Hck].
  { constructor. }
  { exists []. repeat split; constructor. }
  apply NoDup_tasks_of_ids; [|done].
  apply stamped_ids; [|done]. by rewrite Hck.
Qed.

Lemma advancing_clock_unique_ids_witness :
  NoDup (map dataset_id
           (tasks (run [type_text "Buy milk"; click_add;
                        type_text "Walk dog"; click_add;
                        click_item 0 complete_btn]
                     (new_TodoApp None clock_example)))).
Proof.
  apply advancing_clock_unique_ids.
  intros i j Hij. unfold clock_example. lia.
Defined.

(** ** Incomplete tasks with the same text *)

Lemma filter_sublist_mono {A} (P : A -> Prop) `{!forall x, Decision (P x)}
    (k l : list A) :
  sublist k l -> sublist (filter P k) (filter P l).
Proof.
  induction 1 as [|x k l _ IH|x k l _ IH]; [done| |].
  - destruct (decide (P x)).
    + rewrite !filter_cons_True by done. by constructor.
    + by rewrite !filter_cons_False by done.
  - destruct (decide (P x)).
    + rewrite filter_cons_True by done. by constructor.
    + by rewrite filter_cons_False by done.
Qed.

Lemma distinct_incomplete_sublist (k l : list TaskItem) :
  sublist k l -> distinct_incomplete l -> distinct_incomplete k.
Proof.
  intros Hs Hl. unfold distinct_incomplete in *.
  eapply sublist_NoDup; [exact Hl|].
  apply (fmap_sublist (fun t => toLowerCase (textContent t))).
  by apply filter_sublist_mono.
Qed.

(** Property X16.  Every event keeps the incomplete tasks free of equal
    texts (letter case aside), except a click that makes a completed task
    incomplete again: [handleAdd] refuses a text an incomplete task has,
    and deleting, completing and clearing only take tasks away from the
    incomplete ones. *)
Theorem no_duplicate_incomplete_kept e a :
  wf a -> distinct_incomplete (tasks a) ->
  (forall n t, e = click_item n complete_btn -> heap a !! n = Some t ->
               completed t = false) ->
  distinct_incomplete (tasks (dispatch e a)).
Proof.
  intros Hwf Hd Hcomp. destruct e as [s| |n tg|]; cbn [dispatch].
  - done.
  - destruct (handleAdd_outcome a Hwf) as
      [((_ & _ & _ & Hdup) & _ & _ & _ & Hts & _)|(_ & m & Hrun & _)].
    + rewrite Hts. unfold distinct_incomplete in *.
      rewrite filter_cons_True by done. simpl.
      apply NoDup_cons. split; [|done].
      intros Hin. apply list_elem_of_fmap in Hin as (u & Heq & Hu).
      apply list_elem_of_filter in Hu as [Hc Hu].
      by apply (Hdup u Hu Hc).
    + rewrite Hrun. by destruct m.
  - unfold taskList_onclick, closest_task_item.
    destruct (decide (n ∈ taskList a)) as [Hn|]; [|done].
    destruct tg; [| |done].
    + unfold deleteTask. destruct (heap a !! n); [|done]. simpl.
      eapply distinct_incomplete_sublist; [|exact Hd].
      apply tasks_of_filter_sublist.
    + destruct (heap a !! n) as [t|] eqn:Ht.
      * destruct (toggleComplete_spec n a t Ht) as (_ & _ & _ & Hts & _).
        rewrite Hts, (Hcomp n t eq_refl Ht).
        assert (Ho : distinct_incomplete
                       (tasks_of (heap a) (detach n (taskList a)))).
        { eapply distinct_incomplete_sublist; [|exact Hd].
          apply tasks_of_filter_sublist. }
        unfold distinct_incomplete in *. rewrite filter_app.
        rewrite (filter_cons_False _ _ []) by done.
        by rewrite filter_nil, app_nil_r.
      * unfold toggleComplete. by rewrite Ht.
  - destruct (clearCompletedTasks_spec a) as (_ & _ & Hts & _).
    rewrite Hts. eapply distinct_incomplete_sublist; [|exact Hd].
    apply sublist_filter.
Qed.

Lemma no_duplicate_incomplete_kept_witness :
  distinct_incomplete
    (tasks (dispatch click_add (set_taskInput_value "walk dog" two_tasks))).
Proof.
  apply no_duplicate_incomplete_kept.
  - unfold wf. vm_compute. repeat constructor.
  - unfold distinct_incomplete. vm_compute.
    apply NoDup_singleton.
  - intros n t He. discriminate He.
Defined.

(** The exception: a text can be added again while its task is completed,
    and the older task made incomplete afterwards. *)
Example uncomplete_can_duplicate :
  let a := run [type_text "a"; click_add; click_item 0 complete_btn;
                type_text "A"; click_add; click_item 0 complete_btn]
             (new_TodoApp None clock_example) in
  map textContent (tasks a) = ["a"; "A"]
  /\ map completed (tasks a) = [false; false]
  /\ ~ distinct_incomplete (tasks a).
Proof.
  cbv zeta. repeat apply conj; try (vm_compute; reflexivity).
  unfold distinct_incomplete. vm_compute.
  intros H. apply NoDup_cons in H as [H _]. apply H. left.
Qed.

(** ** The list in every reachable state *)

(** Property X17.  In every state the application reaches, whatever the
    slot held and whatever the user did, the children of the list are
    elements that exist, each at most once: [addTask] inserts a new
    element, [toggleComplete] moves the element it is given, and deleting
    and clearing only remove.  So every task of the list is shown once. *)
Theorem reachable_dom_ok slot clk es :
  let a := run es (new_TodoApp slot clk) in
  Forall (fun n => is_Some (heap a !! n)) (taskList a)
  /\ NoDup (taskList a)
  /\ length (tasks a) = length (taskList a).
Proof.
  intros a.
  destruct (run_dom_ok es _ (new_TodoApp_dom_ok slot clk)) as [Hwf Hnd].
  fold a in Hwf, Hnd. unfold wf, tasks in *.
  split; [|split; [done|]].
  - eapply Forall_impl; [exact Hwf|]. intros n Hn.
    by apply lookup_lt_is_Some.
  - clear Hnd. induction Hwf as [|n l Hn _ IH]; [done|].
    apply lookup_lt_is_Some in Hn as [t Ht].
    rewrite (tasks_of_cons _ _ _ t) by done. simpl. by rewrite IH.
Qed.
